(** * A verification development for nom-cheatsheet

    Shallow embedding of the build-time generator of the nom cheat sheet
    ([build.rs]), of the shared helper [markdown_format_code]
    ([nom-cheatsheet-shared/src/lib.rs]) and of the result formatter
    ([src/main.rs]).

    Rust strings are UTF-8 byte strings; they are modelled as [list ascii],
    where [ascii] is an 8-bit byte.  Every character the code inspects
    (back-quote, space, line endings, pipe) is a single ASCII byte, so
    iterating bytes instead of [chars()] does not change any result. *)

From Stdlib Require Import Ascii String ZArith Lia.
From stdpp Require Import base list gmap sets strings pretty sorting.

Open Scope list_scope.

Abbreviation str := (list ascii).

(** String literals of the source, as byte lists. *)
Definition s (x : string) : str := list_ascii_of_string x.

Definition backtick : ascii := "`"%char.
Definition space : ascii := " "%char.

(** [str::starts_with(char)] and [str::ends_with(char)]. *)
Definition starts_with (c : ascii) (t : str) : bool :=
  match t with
  | x :: _ => Ascii.eqb x c
  | [] => false
  end.

Definition ends_with (c : ascii) (t : str) : bool := starts_with c (rev t).

(** [str::repeat] on a one-character string. *)
Definition repeat_char (c : ascii) (n : nat) : str := repeat c n.

(** ** [markdown_format_code] (nom-cheatsheet-shared/src/lib.rs) *)

(** One iteration of the loop that finds the longest sequence of
    back-quotes: the accumulator is [(max, count)]. *)
Definition count_step (acc : nat * nat) (c : ascii) : nat * nat :=
  let '(max, count) := acc in
  if Ascii.eqb c backtick then (Nat.max max (S count), S count)
  else (max, 0).

(** The value of [max] after the loop. *)
Definition longest_backtick_run (input : str) : nat :=
  fst (fold_left count_step input (0, 0)).

Definition markdown_format_code (input : str) : str :=
  let backticks := repeat_char backtick (longest_backtick_run input + 1) in
  let spacing :=
    if (starts_with backtick input || ends_with backtick input)
       || (starts_with space input && ends_with space input)
    then [space] else [] in
  backticks ++ spacing ++ input ++ spacing ++ backticks.

(** ** Vocabulary of the statements *)

(** [a] occurs in [b] as a contiguous piece. *)
Definition is_infix (a b : str) : Prop := exists x y, b = x ++ a ++ y.
Definition is_suffix (a b : str) : Prop := exists x, b = x ++ a.
Definition text_starts (c : ascii) (t : str) : Prop := exists r, t = c :: r.
Definition text_ends (c : ascii) (t : str) : Prop := exists r, t = r ++ [c].

(** [r] is [x ++ run ++ y] where [run] is a maximal run of [L] back-quotes:
    not preceded nor followed by another back-quote. *)
Definition maximal_run_at (L : nat) (r x y : str) : Prop :=
  r = x ++ repeat backtick L ++ y /\
  ~ text_ends backtick x /\ ~ text_starts backtick y.

(** ** nom's parsers on [&str] (complete input) *)

(** The [ErrorKind]s the parsers of this program can report. *)
Inductive ErrorKind := Tag | TakeUntil | IsA | CrLf | Eof | Many1 | Space | Many0.

(** [IResult<&str, A>] restricted to the [Err::Error] case, the only error
    these parsers produce: [Done rest a] is [Ok((rest, a))]. *)
Inductive PResult (A : Type) :=
| Done (rest : str) (a : A)
| PError (at_ : str) (kind : ErrorKind).
Arguments Done {A} rest a.
Arguments PError {A} at_ kind.

Definition pbind {A B} (r : PResult A) (k : str -> A -> PResult B) : PResult B :=
  match r with
  | Done rest a => k rest a
  | PError i e => PError i e
  end.

Notation "'let*' ( i , x ) := r 'in' k" := (pbind r (fun i x => k))
  (at level 200, i name, x name, r at level 100, k at level 200).

Fixpoint str_prefixb (pat input : str) : bool :=
  match pat, input with
  | [], _ => true
  | p :: pat', c :: input' => Ascii.eqb p c && str_prefixb pat' input'
  | _ :: _, [] => false
  end.

(** [tag(pat)] *)
Definition tag (pat input : str) : PResult str :=
  if str_prefixb pat input then Done (drop (length pat) input) pat
  else PError input Tag.

(** [FindSubstring]: index of the first occurrence of [pat]. *)
Fixpoint find_substring (pat input : str) : option nat :=
  if str_prefixb pat input then Some 0 else
  match input with
  | [] => None
  | _ :: input' => option_map S (find_substring pat input')
  end.

(** [take_until(pat)] *)
Definition take_until (pat input : str) : PResult str :=
  match find_substring pat input with
  | Some i => Done (drop i input) (take i input)
  | None => PError input TakeUntil
  end.

(** [rest] *)
Definition rest (input : str) : PResult str := Done [] input.

(** The longest prefix of [input] whose characters satisfy [f]. *)
Fixpoint take_while (f : ascii -> bool) (input : str) : str * str :=
  match input with
  | c :: input' =>
      if f c then let '(p, r) := take_while f input' in (c :: p, r)
      else ([], input)
  | [] => ([], [])
  end.

Definition in_set (set : str) (c : ascii) : bool :=
  existsb (fun x => Ascii.eqb x c) set.

(** [is_a(set)]: at least one character of [set]. *)
Definition is_a (set input : str) : PResult str :=
  let '(p, r) := take_while (in_set set) input in
  match p with
  | [] => PError input IsA
  | _ => Done r p
  end.

(** [space0]: spaces and tabs. *)
Definition space0 (input : str) : PResult str :=
  let '(p, r) := take_while (fun c => Ascii.eqb c " "%char || Ascii.eqb c "009"%char) input in
  Done r p.

(** ** [parse_code_span] (build.rs) *)

(** The stripping step: a single space from the beginning and the end, only
    if they are both there. *)
Definition strip_paired_spaces (code : str) : str :=
  if (2 <=? length code) && starts_with space code && ends_with space code
  then drop 1 (take (length code - 1) code)
  else code.

Definition parse_code_span (input : str) : PResult str :=
  let* (input, backticks) := is_a [backtick] input in
  let* (input, code) := take_until backticks input in
  let* (input, _u) := tag backticks input in
  Done input (strip_paired_spaces code).

(** ** Line endings *)

Definition nl : ascii := "010"%char.
Definition cr : ascii := "013"%char.

(** Index of the first ['\r'] or ['\n']. *)
Fixpoint find_line_char (input : str) : option nat :=
  match input with
  | [] => None
  | c :: input' =>
      if Ascii.eqb c cr || Ascii.eqb c nl then Some 0
      else option_map S (find_line_char input')
  end.

(** [not_line_ending]: a ['\r'] not followed by ['\n'] is an error. *)
Definition not_line_ending (input : str) : PResult str :=
  match find_line_char input with
  | None => Done [] input
  | Some i =>
      if starts_with cr (drop i input) then
        if str_prefixb [cr; nl] (drop i input) then Done (drop i input) (take i input)
        else PError input Tag
      else Done (drop i input) (take i input)
  end.

(** [line_ending]: ["\n"] or ["\r\n"]. *)
Definition line_ending (input : str) : PResult str :=
  if str_prefixb [nl] input then Done (drop 1 input) [nl]
  else if str_prefixb [cr; nl] input then Done (drop 2 input) [cr; nl]
  else PError input CrLf.

(** [terminated(p, q)] *)
Definition terminated {A B} (p : str -> PResult A) (q : str -> PResult B)
    (input : str) : PResult A :=
  let* (input, a) := p input in
  let* (input, _b) := q input in
  Done input a.

(** [alt((p, q))] for parsers that only report [Err::Error]. *)
Definition alt {A} (p q : str -> PResult A) (input : str) : PResult A :=
  match p input with
  | Done r a => Done r a
  | PError _ _ => q input
  end.

(** The loop of [many1] after its first item.  Each iteration must consume
    input (otherwise nom reports [ErrorKind::Many1]), so [length input + 1]
    iterations always suffice: [fuel] is that bound. *)
Fixpoint many_loop {A} (fuel : nat) (p : str -> PResult A) (input : str)
    (acc : list A) : PResult (list A) :=
  match fuel with
  | O => Done input acc
  | S fuel =>
      match p input with
      | PError _ _ => Done input acc
      | Done input1 o =>
          if length input1 =? length input then PError input Many1
          else many_loop fuel p input1 (acc ++ [o])
      end
  end.

(** [many1(p)] *)
Definition many1 {A} (p : str -> PResult A) (input : str) : PResult (list A) :=
  match p input with
  | PError _ _ => PError input Many1
  | Done input1 o =>
      if length input1 =? length input then PError input Many1
      else many_loop (S (length input1)) p input1 [o]
  end.

(** ** The template segmenter (build.rs) *)

Inductive Component :=
| Text (text : str)
| CodeBlock (language code : str).

Definition fence : str := s "```".

Definition parse_outside_code_blocks (input : str) : PResult Component :=
  let* (input, text) := alt (take_until fence) rest input in
  match text with
  | [] => PError input Eof
  | _ => Done input (Text text)
  end.

Definition parse_code_block (input : str) : PResult Component :=
  let* (input, _f) := tag fence input in
  let* (input, language) := terminated not_line_ending line_ending input in
  let* (input, code) := take_until fence input in
  let* (input, _f) := tag fence input in
  Done input (CodeBlock language code).

(** How the build script stops: a panic ([unwrap], [assert!], [panic!]) or
    an error returned through [?]. *)
Inductive BuildError :=
| Panic (msg : string)
| SynError (what : string).

Inductive BuildResult (A : Type) :=
| BOk (a : A)
| BErr (e : BuildError).
Arguments BOk {A} a.
Arguments BErr {A} e.

Definition test_suffix : str :=
  [nl] ++ s "#[cfg(test)]" ++ [nl] ++ s "mod tests {" ++ [nl] ++
  s "    use super::*;" ++ [nl; nl] ++ s "    #[test]" ++ [nl] ++
  s "    fn test_main() {" ++ [nl] ++ s "        main();" ++ [nl] ++
  s "    }" ++ [nl] ++ s "}".

(** The files written under [examples/]: the code blocks tagged [rust] or
    [rs], with the test module appended ([fs::write] is not modelled as
    fallible: file plumbing is outside the model). *)
Fixpoint example_files (index : nat) (cs : list Component) : list (str * str) :=
  match cs with
  | [] => []
  | CodeBlock language code :: cs' =>
      if bool_decide (language = s "ignore") then example_files (S index) cs'
      else if bool_decide (language <> s "rust" /\ language <> s "rs")
      then example_files (S index) cs'
      else (s "examples/example" ++ s (pretty index) ++ s ".rs", code ++ test_suffix)
             :: example_files (S index) cs'
  | Text _ :: cs' => example_files (S index) cs'
  end.

(** The in-place rewrite of the language tag [ignore] into [rust]. *)
Definition retag_ignore (c : Component) : Component :=
  match c with
  | CodeBlock language code =>
      if bool_decide (language = s "ignore") then CodeBlock (s "rust") code else c
  | Text _ => c
  end.

(** The re-emission of one component. *)
Definition render_component (c : Component) : str :=
  match c with
  | Text text => text
  | CodeBlock language code => fence ++ language ++ [nl] ++ code ++ [nl] ++ fence
  end.

Definition do_code_blocks (input : str) : BuildResult (list (str * str) * str) :=
  match many1 (alt parse_code_block parse_outside_code_blocks) input with
  | PError _ _ => BErr (Panic "called `Result::unwrap()` on an `Err` value")
  | Done input components =>
      if bool_decide (input = []) then
        BOk (example_files 0 components,
             concat (map render_component (map retag_ignore components)))
      else BErr (Panic "assertion `left == right` failed")
  end.

(** The covering of a template by its components: each [Text] is a
    non-empty piece taken verbatim, each [CodeBlock] is an opening fence,
    the tag, the line ending that ended the tag line, the code and the
    closing fence.  Pieces follow each other with no gap or overlap. *)
Inductive covers : list Component -> str -> Prop :=
| covers_nil : covers [] []
| covers_text (text : str) (cs : list Component) (rest : str) :
    text <> [] -> covers cs rest -> covers (Text text :: cs) (text ++ rest)
| covers_code (language le code : str) (cs : list Component) (rest : str) :
    (le = [nl] \/ le = [cr; nl]) -> covers cs rest ->
    covers (CodeBlock language code :: cs) (fence ++ language ++ le ++ code ++ fence ++ rest).

(** ** Result formatting (src/main.rs) *)

(** [usize] on a 64-bit target. *)
Definition usize_modulus : Z := 2 ^ 64.

(** [usize::checked_add] *)
Definition checked_add (a b : Z) : option Z :=
  if (a + b <? usize_modulus)%Z then Some (a + b)%Z else None.

(** A [&str] or [&[u8]] as the code sees it: a start address and a byte
    length. *)
Record Slice := { ptr : Z; len : Z }.

(** A slice of the address space: its end address fits in a [usize]. *)
Definition well_formed (x : Slice) : Prop :=
  (0 <= ptr x)%Z /\ (0 <= len x)%Z /\ (ptr x + len x < usize_modulus)%Z.

(** [x] lies inside [self]: the source's notion of a sub-span. *)
Definition is_subspan (self x : Slice) : Prop :=
  (ptr self <= ptr x)%Z /\ (ptr x + len x <= ptr self + len self)%Z.

Notation "'let?' x := c 'in' k" :=
  (match c with Some x => k | None => None end)
  (at level 200, x name, c at level 100, k at level 200).

(** [impl SubsliceOffset for str] *)
Definition subslice_offset_bytes_str (self subslice : Slice) : option Z :=
  let? self_end := checked_add (ptr self) (len self) in
  let? subslice_end := checked_add (ptr subslice) (len subslice) in
  if ((ptr subslice <? ptr self) || (ptr subslice =? self_end)
      || (self_end <? subslice_end))%Z then None else
  let? self_end' := checked_add (ptr self) (len self) in
  if ((ptr subslice <? ptr self) || (self_end' <? ptr subslice))%Z then None else
  Some (ptr subslice - ptr self)%Z.

(** [impl SubsliceOffset for [u8]] *)
Definition subslice_offset_bytes_u8 (self subslice : Slice) : option Z :=
  let? self_end := checked_add (ptr self) (len self) in
  let? subslice_end := checked_add (ptr subslice) (len subslice) in
  if ((ptr subslice <? ptr self) || (self_end <? subslice_end))%Z then None else
  Some (ptr subslice - ptr self)%Z.

(** The two instantiations of [format_iresult] in the generated code:
    [I = &str] and [I = &[u8]]. *)
Inductive InputKind := StrInput | BytesInput.

Definition subslice_offset_bytes (k : InputKind) : Slice -> Slice -> option Z :=
  match k with
  | StrInput => subslice_offset_bytes_str
  | BytesInput => subslice_offset_bytes_u8
  end.

(** [nom::Needed] *)
Inductive Needed := Size (n : nat) | Unknown.

(** [nom::Err<nom::error::Error<I>>]: a location and the [Debug] text of
    its [ErrorKind]. *)
Inductive NomErr :=
| Incomplete (n : Needed)
| Error (location : Slice) (code : str)
| Failure (location : Slice) (code : str).

(** [IResult<I, O>]: for [Ok], the remainder, the [{:#04x?}] [Debug] text
    of the remainder and the [{:?}] [Debug] text of the value. *)
Inductive IResult :=
| IOk (remainder : Slice) (remainder_debug value_debug : str)
| IErr (e : NomErr).

(** [str::replace] for a non-empty pattern. *)
Fixpoint replace_fuel (fuel : nat) (pat to t : str) : str :=
  match fuel, t with
  | O, _ => t
  | _, [] => []
  | S fuel, c :: t' =>
      if str_prefixb pat t then to ++ replace_fuel fuel pat to (drop (length pat) t)
      else c :: replace_fuel fuel pat to t'
  end.

Definition replace (pat to t : str) : str := replace_fuel (length t) pat to t.

Definition format_remainder (remainder_debug : str) : str :=
  replace (s "[") (s "&[")
    (replace (s ",") (s ", ")
       (replace (s ",]") (s "]")
          (replace (s " ") []
             (replace [nl] [] (markdown_format_code remainder_debug))))).

Definition br : str := s "<br>".

(** [format_iresult]; [None] is the panic of [unwrap]. *)
Definition format_iresult (k : InputKind) (input : Slice) (result : IResult) : option str :=
  match result with
  | IOk remainder remainder_debug value_debug =>
      let value := markdown_format_code value_debug in
      if (len remainder =? 0)%Z then Some (s "Result: " ++ value ++ br ++ s "No remainder")
      else Some (s "Result: " ++ value ++ br ++ s "Remainder: " ++ format_remainder remainder_debug)
  | IErr (Incomplete (Size size)) =>
      Some (s "Incomplete" ++ br ++ s "Needed: " ++ s (pretty size) ++ s " items")
  | IErr (Incomplete Unknown) => Some (s "Incomplete" ++ br ++ s "Needed: unknown")
  | IErr (Error location code) =>
      let? offset := subslice_offset_bytes k input location in
      Some (s "Error" ++ br ++ s "Byte offset: " ++ s (pretty offset) ++ br ++ s "Code: " ++ code)
  | IErr (Failure location code) =>
      let? offset := subslice_offset_bytes k input location in
      Some (s "Failure" ++ br ++ s "Byte offset: " ++ s (pretty offset) ++ br ++ s "Code: " ++ code)
  end.

(** The text rendered for an [Error] or [Failure] found at [offset]. *)
Definition error_line (kind : str) (offset : Z) (code : str) : str :=
  kind ++ br ++ s "Byte offset: " ++ s (pretty offset) ++ br ++ s "Code: " ++ code.

(** Where [format_iresult] renders an offset: a sub-span of the input
    that, for a [str] input, does not start at the input's end. *)
Definition located (k : InputKind) (input loc : Slice) : Prop :=
  is_subspan input loc /\ (k = BytesInput \/ ptr loc <> (ptr input + len input)%Z).

#[global] Instance InputKind_eq_dec : EqDecision InputKind.
Proof. solve_decision. Defined.

#[global] Instance is_subspan_dec (self x : Slice) : Decision (is_subspan self x).
Proof. unfold is_subspan. apply _. Defined.

#[global] Instance located_dec (k : InputKind) (input loc : Slice) :
  Decision (located k input loc).
Proof. unfold located. apply _. Defined.

(** ** The import ledger of [main] (build.rs) *)

(** A generated [syn::Item] is represented by its token text; two items are
    equal exactly when their texts are, and the text is also the key the
    final list is sorted by ([to_token_stream().to_string()]). *)
Abbreviation Item := str.

(** [uses.insert(name, stmt)]; when the old statement differs from the new
    one, [name] goes to [uses_conflicts]. *)
Definition record_use (ledger : gmap str Item * gset str) (rec : str * Item)
    : gmap str Item * gset str :=
  let '(uses, uses_conflicts) := ledger in
  let '(name, use_statement) := rec in
  match uses !! name with
  | Some conflict =>
      if bool_decide (conflict <> use_statement)
      then (<[name := use_statement]> uses, {[name]} ∪ uses_conflicts)
      else (<[name := use_statement]> uses, uses_conflicts)
  | None => (<[name := use_statement]> uses, uses_conflicts)
  end.

(** The ledger after a sequence of recordings, from the empty one. *)
Definition ledger (recs : list (str * Item)) : gmap str Item * gset str :=
  foldl record_use (∅, ∅) recs.

(** Byte-wise lexicographic order of Rust's [String]. *)
Fixpoint str_leb (a b : str) : bool :=
  match a, b with
  | [], _ => true
  | _ :: _, [] => false
  | x :: a', y :: b' =>
      if (N_of_ascii x <? N_of_ascii y)%N then true
      else if (N_of_ascii x =? N_of_ascii y)%N then str_leb a' b' else false
  end.

Definition str_le (a b : str) : Prop := str_leb a b = true.

#[global] Instance str_le_dec : RelDecision str_le.
Proof. intros a b. unfold str_le. apply _. Defined.

(** [uses.sort_by_key(|item| item.to_token_stream().to_string())]: a
    stable merge sort, as Rust's [sort_by_key]. *)
Definition sort_items (items : list Item) : list Item := merge_sort str_le items.

(** The removal of the conflicted names and the sorted list of the
    remaining statements.  [map_to_list] is one enumeration of the map;
    [HashMap::values] may enumerate in any order. *)
Definition finalize (uses : gmap str Item) (uses_conflicts : gset str) : list Item :=
  let uses := foldr delete uses (elements uses_conflicts) in
  sort_items (map snd (map_to_list uses)).

(** ** The table rows and their processing in [main] (build.rs) *)

Record Url := { module : str; name : str; docsurl : str }.

(** A parsed table row.  [imports] is the leading [use ...;] block split
    off the usage by [parse_imports_short]. *)
Record Combinator := {
  urls : list Url;
  imports : str;
  usage : option str;
  input : option str;
  description : str
}.

(** The shape of the input expression that matters to [main]. *)
Inductive ExprKind := RefArray | ByteStr | OtherExpr.

(** The [syn] parsing [main] relies on, an external library: which texts
    parse, and the little of their structure the code inspects. *)
Class SynParse := {
  (** [syn::parse_str::<syn::File>]: the items of a [use] block *)
  parse_file : str -> option (list Item);
  (** [syn::parse_str::<syn::Path>] succeeds *)
  parse_path : str -> bool;
  (** [format_ident!] accepts the name (it panics otherwise) *)
  is_ident : str -> bool;
  (** [syn::parse_str::<Expr>] of the input, and its shape *)
  parse_input_expr : str -> option ExprKind;
  (** [syn::parse_str::<Stmt>] gives a [Stmt::Local]: its pattern text *)
  parse_local_pattern : str -> option str;
  (** [syn::parse_str::<Expr>] of the usage succeeds *)
  parse_usage_expr : str -> bool
}.

(** The [let] statement of a row block. *)
Inductive Assignment :=
| LocalAsIs (stmt : str)        (* the usage already binds [output] *)
| LetOutput (expr : str).       (* [let output: IResult<_, _> = expr(input);] *)

(** The statements pushed into [generate()]. *)
Inductive Stmt :=
| WritePreamble (preamble : str)
| StaticRow (urlstrings desc : str)
| RowBlock (items : list Item) (input_code : str) (assignment : Assignment)
    (urlstrings usage input desc : str)
| WriteRemainder (remainder : str).

(** The line a [StaticRow] writes. *)
Definition static_row_text (urlstrings desc : str) : str :=
  s "| " ++ urlstrings ++ s " |  |  |  | " ++ desc ++ s " |".

(** The reference column a row statement renders. *)
Definition reference_column (st : Stmt) : option str :=
  match st with
  | StaticRow urlstrings _ => Some urlstrings
  | RowBlock _ _ _ urlstrings _ _ _ => Some urlstrings
  | _ => None
  end.

Definition str_ends_with (suffix t : str) : bool := str_prefixb (rev suffix) (rev t).

(** Modules that end with [streaming] or start with [bits] get no [use]. *)
Definition excluded_module (m : str) : bool :=
  str_ends_with (s "streaming") m || str_prefixb (s "bits") m.

Fixpoint join (sep : str) (l : list str) : str :=
  match l with
  | [] => []
  | [x] => x
  | x :: l' => x ++ sep ++ join sep l'
  end.

(** [str::split(pat)] for a non-empty pattern: the pieces between the
    matches found from left to right.  Every step but the last removes at
    least one byte, so [length t + 1] steps suffice. *)
Fixpoint split_fuel (fuel : nat) (pat t : str) : list str :=
  match fuel with
  | O => [t]
  | S fuel =>
      match find_substring pat t with
      | None => [t]
      | Some i => take i t :: split_fuel fuel pat (drop (i + length pat) t)
      end
  end.

Definition split (pat t : str) : list str := split_fuel (S (length t)) pat t.

(** [#[allow(unused_imports)] use nom::module::name;], by its token text
    [to_token_stream().to_string()] (proc-macro2's printing: tokens apart by
    one space, a joint [:] glued to the next [:], a bracket or parenthesis
    group with no inner padding): the module path [nom::{module}] is parsed
    by [syn::parse_str], so each of its [::]-separated segments is one
    identifier token. *)
Definition use_item (m n : str) : Item :=
  s "# [allow (unused_imports)] use nom :: " ++
    join (s " :: ") (split (s "::") m) ++ s " :: " ++ n ++ s " ;".

(** [{module}::[{name}]({docsurl})] *)
Definition url_string (u : Url) : str :=
  module u ++ s "::[" ++ name u ++ s "](" ++ docsurl u ++ s ")".

Definition bbind {A B} (r : BuildResult A) (k : A -> BuildResult B) : BuildResult B :=
  match r with
  | BOk a => k a
  | BErr e => BErr e
  end.

#[global] Instance BuildResult_mbind : MBind BuildResult := fun A B k r => bbind r k.
#[global] Instance BuildResult_mret : MRet BuildResult := fun A a => BOk a.

Definition ok_or {A} (o : option A) (e : BuildError) : BuildResult A :=
  match o with Some a => BOk a | None => BErr e end.

(** The loop state of [main]. *)
Record State := {
  uses : gmap str Item;
  uses_conflicts : gset str;
  last_urls : list Url;
  statements : list Stmt
}.

Section Main.
Context `{SynParse}.

(** The inner loop over a row's resolved references: the [use] items
    pushed into the row's block and the recording into the ledger. *)
Fixpoint push_uses (us : list Url) (items : list Item)
    (ledger : gmap str Item * gset str) : BuildResult (list Item * (gmap str Item * gset str)) :=
  match us with
  | [] => BOk (items, ledger)
  | u :: us' =>
      if excluded_module (module u) then push_uses us' items ledger
      else if negb (parse_path (s "nom::" ++ module u)) then BErr (SynError "syn::Path")
      else if negb (is_ident (name u)) then BErr (Panic "format_ident!")
      else
        let use_statement := use_item (module u) (name u) in
        push_uses us' (items ++ [use_statement]) (record_use ledger (name u, use_statement))
  end.

(** The block of a row with both usage and input. *)
Definition row_block (items : list Item) (input usage urlstrings desc : str)
    : BuildResult Stmt :=
  kind ← ok_or (parse_input_expr input) (SynError "syn::Expr");
  let input_code :=
    match kind with
    | RefArray => input ++ s "[..]"
    | ByteStr => input ++ s " as &[u8]"
    | OtherExpr => input
    end in
  let usage_code := replace (s "\|") (s "|") usage in
  let usage_with_input := usage_code ++ s "(input);" in
  assignment ←
    match parse_local_pattern usage_with_input with
    | Some pat =>
        if str_prefixb (s "output") pat then BOk (LocalAsIs usage_with_input)
        else BErr (Panic "assertion failed: starts_with(output)")
    | None =>
        if parse_usage_expr usage_code then BOk (LetOutput usage_code)
        else BErr (Panic "called `Result::unwrap()` on an `Err` value")
    end;
  BOk (RowBlock items input_code assignment urlstrings
         (markdown_format_code usage) (markdown_format_code input) desc).

(** The resolved references of a row: its own, or the previous row's when
    it has none. *)
Definition resolve_urls (last : list Url) (c : Combinator) : list Url :=
  match urls c with
  | [] => last
  | _ => urls c
  end.

(** One iteration of the row loop of [main]. *)
Definition process_row (st : State) (c : Combinator) : BuildResult State :=
  let us := resolve_urls (last_urls st) c in
  items ← ok_or (parse_file (imports c)) (SynError "syn::File");
  '(items, (uses', conflicts')) ← push_uses us items (uses st, uses_conflicts st);
  let urlstrings := join (s "<br>") (map url_string (urls c)) in
  row ←
    match input c, usage c with
    | None, None => BOk (StaticRow urlstrings (description c))
    | Some _, None | None, Some _ =>
        BErr (Panic "Both usage and input must be present, or neither.")
    | Some inp, Some usg => row_block items inp usg urlstrings (description c)
    end;
  BOk {| uses := uses'; uses_conflicts := conflicts'; last_urls := us;
         statements := statements st ++ [row] |}.

Fixpoint run_rows (st : State) (rows : list Combinator) : BuildResult State :=
  match rows with
  | [] => BOk st
  | c :: rows' => st' ← process_row st c; run_rows st' rows'
  end.

Definition push_statement (st : State) (x : Stmt) : State :=
  {| uses := uses st; uses_conflicts := uses_conflicts st; last_urls := last_urls st;
     statements := statements st ++ [x] |}.

(** The table loop: each table's preamble, then its rows. *)
Fixpoint run_tables (st : State) (tables : list (str * list Combinator)) : BuildResult State :=
  match tables with
  | [] => BOk st
  | (preamble, rows) :: tables' =>
      st' ← run_rows (push_statement st (WritePreamble preamble)) rows;
      run_tables st' tables'
  end.

Definition initial_state : State :=
  {| uses := ∅; uses_conflicts := ∅; last_urls := []; statements := [] |}.

(** [main] from the parsed tables and the text after the last table to the
    statements of [generate()] and the global [use] items. *)
Definition main (tables : list (str * list Combinator)) (remainder : str)
    : BuildResult (list Stmt * list Item) :=
  st ← run_tables initial_state tables;
  BOk (statements st ++ [WriteRemainder remainder],
       finalize (uses st) (uses_conflicts st)).

End Main.

(** A [syn] that accepts every text, for concrete runs. *)
Definition syn_accept_all : SynParse := {|
  parse_file := fun _ => Some [];
  parse_path := fun _ => true;
  is_ident := fun _ => true;
  parse_input_expr := fun _ => Some OtherExpr;
  parse_local_pattern := fun _ => None;
  parse_usage_expr := fun _ => true
|}.

(** A two-row table of the cheat sheet: the second row has no references
    of its own. *)
Definition tag_url : Url := {|
  module := s "bytes::complete"; name := s "tag";
  docsurl := s "https://docs.rs/nom/latest/nom/bytes/complete/fn.tag.html" |}.

Definition row_tag1 : Combinator := {|
  urls := [tag_url]; imports := []; usage := Some (s "tag(ab)");
  input := Some (s "abc"); description := s "first" |}.

Definition row_tag2 : Combinator := {|
  urls := []; imports := []; usage := Some (s "tag(xy)");
  input := Some (s "xyz"); description := s "second" |}.

(** What the ledger knows after [recs]: every stored statement was
    proposed, every proposed name is stored, and the conflicted names are
    those with two different proposals. *)
Definition ledger_inv (recs : list (str * Item)) (l : gmap str Item * gset str) : Prop :=
  let '(uses, uses_conflicts) := l in
  (forall n t, uses !! n = Some t -> (n, t) ∈ recs) /\
  (forall n t, (n, t) ∈ recs -> is_Some (uses !! n)) /\
  (forall n, n ∈ uses_conflicts <->
     exists t1 t2, t1 <> t2 /\ (n, t1) ∈ recs /\ (n, t2) ∈ recs).

(** The global [use] list of a sequence of recordings. *)
Definition global_uses (recs : list (str * Item)) : list Item :=
  let '(uses, uses_conflicts) := ledger recs in finalize uses uses_conflicts.

#[global] Instance str_le_trans : Transitive str_le.
Proof.
  unfold str_le. intros a. induction a as [|x a IH]; intros [|y b] [|z c]; simpl;
    try done.
  destruct (N.ltb_spec (N_of_ascii x) (N_of_ascii y)),
    (N.eqb_spec (N_of_ascii x) (N_of_ascii y)),
    (N.ltb_spec (N_of_ascii y) (N_of_ascii z)),
    (N.eqb_spec (N_of_ascii y) (N_of_ascii z)),
    (N.ltb_spec (N_of_ascii x) (N_of_ascii z)),
    (N.eqb_spec (N_of_ascii x) (N_of_ascii z)); try done; try lia.
  apply IH.
Qed.

#[global] Instance str_le_antisymm : AntiSymm (=) str_le.
Proof.
  unfold str_le. intros a. induction a as [|x a IH]; intros [|y b]; simpl; try done.
  destruct (N.ltb_spec (N_of_ascii x) (N_of_ascii y)),
    (N.eqb_spec (N_of_ascii x) (N_of_ascii y)),
    (N.ltb_spec (N_of_ascii y) (N_of_ascii x)),
    (N.eqb_spec (N_of_ascii y) (N_of_ascii x)); try done; try lia.
  intros H1 H2. f_equal; [|by apply IH].
  rewrite <- (ascii_N_embedding x), <- (ascii_N_embedding y). by f_equal.
Qed.

#[global] Instance str_le_total : Total str_le.
Proof.
  unfold str_le. intros a. induction a as [|x a IH]; intros [|y b]; simpl; auto.
  destruct (N.ltb_spec (N_of_ascii x) (N_of_ascii y)),
    (N.eqb_spec (N_of_ascii x) (N_of_ascii y)),
    (N.ltb_spec (N_of_ascii y) (N_of_ascii x)),
    (N.eqb_spec (N_of_ascii y) (N_of_ascii x)); auto; lia.
Qed.

(** The references of a row that get a [use]: the others are skipped by
    the [continue] of the inner loop. *)
Definition kept_urls (us : list Url) : list Url :=
  List.filter (fun u => negb (excluded_module (module u))) us.

(** The [use] items the inner loop pushes into a row's block. *)
Definition gen_items (us : list Url) : list Item :=
  map (fun u => use_item (module u) (name u)) (kept_urls us).

(** The recordings the inner loop makes into the ledger. *)
Definition recordings (us : list Url) : list (str * Item) :=
  map (fun u => (name u, use_item (module u) (name u))) (kept_urls us).

(** The items of a row block. *)
Definition row_items (st : Stmt) : option (list Item) :=
  match st with
  | RowBlock items _ _ _ _ _ _ => Some items
  | _ => None
  end.

(** A row with a usage and no input. *)
Definition row_half : Combinator := {|
  urls := [tag_url]; imports := []; usage := Some (s "tag(ab)");
  input := None; description := s "half" |}.

(** A reference into a [bits] module and a static row that names it. *)
Definition bits_url : Url := {|
  module := s "bits::complete"; name := s "tag";
  docsurl := s "https://docs.rs/nom/latest/nom/bits/complete/fn.tag.html" |}.

Definition row_bits : Combinator := {|
  urls := [bits_url]; imports := []; usage := None; input := None;
  description := s "bits" |}.

(** ** Table rows (build.rs) *)


(** The length of the white-space character [t] ends with, or 0: the
    characters with Unicode's [White_Space] property ([char::is_whitespace])
    in UTF-8. *)
Definition ws_suffix_len (t : str) : nat :=
  let n := N_of_ascii in
  match rev t with
  | [] => 0
  | b :: r =>
      if ((9 <=? n b) && (n b <=? 13))%N || (n b =? 32)%N then 1 else
      match r with
      | [] => 0
      | c2 :: r' =>
          if ((n b =? 0x85)%N || (n b =? 0xA0)%N) && (n c2 =? 0xC2)%N then 2 else
          match r' with
          | [] => 0
          | c3 :: _ =>
              if ((n c3 =? 0xE1)%N && (n c2 =? 0x9A)%N && (n b =? 0x80)%N)
                 || ((n c3 =? 0xE2)%N && (n c2 =? 0x80)%N &&
                     (((0x80 <=? n b) && (n b <=? 0x8A))%N || (n b =? 0xA8)%N
                      || (n b =? 0xA9)%N || (n b =? 0xAF)%N))
                 || ((n c3 =? 0xE2)%N && (n c2 =? 0x81)%N && (n b =? 0x9F)%N)
                 || ((n c3 =? 0xE3)%N && (n c2 =? 0x80)%N && (n b =? 0x80)%N)
              then 3 else 0
          end
      end
  end.

Fixpoint trim_end_fuel (fuel : nat) (t : str) : str :=
  match fuel with
  | O => t
  | S fuel =>
      match ws_suffix_len t with
      | O => t
      | k => trim_end_fuel fuel (take (length t - k) t)
      end
  end.

(** [str::trim_end] *)
Definition trim_end (t : str) : str := trim_end_fuel (length t) t.

(** [char::is_lowercase] of the first character of a non-empty string:
    Unicode's [Lowercase] property, outside this model. *)
Class CharClass := { first_char_is_lowercase : str -> bool }.

Definition docs_base : str := s "https://docs.rs/nom/latest/nom/".

(** The closure of [filter_map] in [parse_combinator] for a non-empty
    piece; [None] is a panic: of [parts.pop().unwrap()] (never, [split]
    yields a piece) or of [chars().next().unwrap()] on an empty name. *)
Definition parse_url `{CharClass} (url : str) : option Url :=
  let parts := split (s "::") url in
  match last parts with
  | None => None
  | Some name =>
      let parts := removelast parts in
      let path := join (s "::") parts in
      let docsurl := docs_base ++ concat (map (fun part => part ++ [ "/"%char ]) parts) in
      match name with
      | [] => None
      | _ =>
          let docsurl :=
            docsurl ++ (if first_char_is_lowercase name then s "fn." else s "enum.") in
          Some {| module := path; name := name; docsurl := docsurl ++ name ++ s ".html" |}
      end
  end.

(** [urls.split("<br>").filter_map(...).collect()] *)
Fixpoint parse_url_pieces `{CharClass} (pieces : list str) : option (list Url) :=
  match pieces with
  | [] => Some []
  | [] :: pieces' => parse_url_pieces pieces'
  | url :: pieces' =>
      match parse_url url with
      | None => None
      | Some u => option_map (cons u) (parse_url_pieces pieces')
      end
  end.

Definition parse_urls `{CharClass} (urls : str) : option (list Url) :=
  parse_url_pieces (split (s "<br>") urls).

(** [sep]: optional blanks, a bar, optional blanks. *)
Definition sep (input : str) : PResult str :=
  let* (input, _a) := space0 input in
  let* (input, _b) := tag (s "|") input in
  let* (input, _c) := space0 input in
  Done input [].

(** [opt(p)] for a parser that only reports [Err::Error]. *)
Definition opt {A} (p : str -> PResult A) (input : str) : PResult (option A) :=
  match p input with
  | Done r a => Done r (Some a)
  | PError _ _ => Done input None
  end.

(** [recognize(p)]: the consumed prefix. *)
Definition recognize {A} (p : str -> PResult A) (input : str) : PResult str :=
  match p input with
  | Done r _a => Done r (take (length input - length r) input)
  | PError i e => PError i e
  end.

(** The loop of [many0]: each iteration must consume input, otherwise nom
    reports [ErrorKind::Many0]; [fuel] is [length input + 1]. *)
Fixpoint many0_loop {A} (fuel : nat) (p : str -> PResult A) (input : str)
    (acc : list A) : PResult (list A) :=
  match fuel with
  | O => Done input acc
  | S fuel =>
      match p input with
      | PError _ _ => Done input acc
      | Done input1 o =>
          if length input1 =? length input then PError input Many0
          else many0_loop fuel p input1 (acc ++ [o])
      end
  end.

(** [many0(p)] *)
Definition many0 {A} (p : str -> PResult A) (input : str) : PResult (list A) :=
  many0_loop (S (length input)) p input [].

(** [tuple((tag("use "), take_until(";"), tag(";"), space0))] *)
Definition use_decl (input : str) : PResult (str * str * str * str) :=
  let* (input, a) := tag (s "use ") input in
  let* (input, b) := take_until (s ";") input in
  let* (input, c) := tag (s ";") input in
  let* (input, d) := space0 input in
  Done input (a, b, c, d).

(** [parse_imports_short]: the leading [use ...;] declarations; the result
    is the rest of the usage and the declarations. *)
Definition parse_imports_short (input : str) : PResult str :=
  recognize (many0 use_decl) input.

(** The cells of a row, read by the [nom] part of [parse_combinator]: the
    reference cell (trimmed), the optional usage and input code spans and
    the description (trimmed). *)
Definition parse_row_cells (input : str) : PResult (str * option str * option str * str) :=
  let* (input, _s1) := sep input in
  let* (input, urls) := take_until (s "|") input in
  let urls := trim_end urls in
  let* (input, _b) := space0 input in
  let* (input, _s2) := sep input in
  let* (input, usage) := opt parse_code_span input in
  let* (input, _s3) := sep input in
  let* (input, example_input) := opt parse_code_span input in
  let* (input, _s4) := sep input in
  let* (input, _s5) := sep input in
  let* (input, description) := take_until (s "|") input in
  let description := trim_end description in
  let* (input, _s6) := sep input in
  let* (input, _le) := line_ending input in
  Done input (urls, usage, example_input, description).

(** [parse_combinator]: a parser that may also panic ([BErr]). *)
Definition parse_combinator `{CharClass} (input : str) : BuildResult (PResult Combinator) :=
  match parse_row_cells input with
  | PError i e => BOk (PError i e)
  | Done input (urls_text, usage, example_input, description) =>
      match parse_urls urls_text with
      | None => BErr (Panic "called `Option::unwrap()` on a `None` value")
      | Some urls =>
          match usage with
          | Some usage =>
              match parse_imports_short usage with
              | PError i e => BOk (PError i e)
              | Done usage imports =>
                  BOk (Done input {| urls := urls; imports := imports; usage := Some usage;
                                     input := example_input; description := description |})
              end
          | None =>
              BOk (Done input {| urls := urls; imports := []; usage := None;
                                 input := example_input; description := description |})
          end
      end
  end.

(** The loop of [many1] for a parser that may panic. *)
Fixpoint many_loop_b {A} (fuel : nat) (p : str -> BuildResult (PResult A)) (input : str)
    (acc : list A) : BuildResult (PResult (list A)) :=
  match fuel with
  | O => BOk (Done input acc)
  | S fuel =>
      r ← p input;
      match r with
      | PError _ _ => BOk (Done input acc)
      | Done input1 o =>
          if length input1 =? length input then BOk (PError input Many1)
          else many_loop_b fuel p input1 (acc ++ [o])
      end
  end.

(** nom's [many1(p)]: the first item is not checked for progress. *)
Definition many1_b {A} (p : str -> BuildResult (PResult A)) (input : str)
    : BuildResult (PResult (list A)) :=
  r ← p input;
  match r with
  | PError _ _ => BOk (PError input Many1)
  | Done input1 o => many_loop_b (S (length input1)) p input1 [o]
  end.

Definition TABLE_HEADER_SEP : str := s "|---|---|---|---|---|".

(** [tuple((take_until(TABLE_HEADER_SEP), tag(TABLE_HEADER_SEP), line_ending))] *)
Definition table_header (input : str) : PResult (str * str * str) :=
  let* (input, a) := take_until TABLE_HEADER_SEP input in
  let* (input, b) := tag TABLE_HEADER_SEP input in
  let* (input, c) := line_ending input in
  Done input (a, b, c).

(** [parse_preamble_and_combinators]: the text up to and including a table
    header, then the rows of the table. *)
Definition parse_preamble_and_combinators `{CharClass} (input : str)
    : BuildResult (PResult (str * list Combinator)) :=
  match recognize table_header input with
  | PError i e => BOk (PError i e)
  | Done input preamble =>
      r ← many1_b parse_combinator input;
      match r with
      | PError i e => BOk (PError i e)
      | Done input combinators => BOk (Done input (preamble, combinators))
      end
  end.

(** The build script's [main] from the template: the example files, then
    the statements of [generate()] and the global [use] items. *)
Definition build `{SynParse} `{CharClass} (template : str)
    : BuildResult (list (str * str) * (list Stmt * list Item)) :=
  '(files, input) ← do_code_blocks template;
  r ← many1_b parse_preamble_and_combinators input;
  match r with
  | PError _ _ => BErr (Panic "called `Result::unwrap()` on an `Err` value")
  | Done remainder tables =>
      out ← main tables remainder;
      BOk (files, out)
  end.

(** [char::is_lowercase] on ASCII letters, for the examples. *)
#[global] Instance ascii_char_class : CharClass := {|
  first_char_is_lowercase t :=
    match t with
    | c :: _ => (97 <=? N_of_ascii c)%N && (N_of_ascii c <=? 122)%N
    | [] => false
    end |}.

(** The characters [space0] accepts. *)
Definition is_blank (c : ascii) : bool := Ascii.eqb c " "%char || Ascii.eqb c "009"%char.

Definition starts_blank (r : str) : bool :=
  match r with c :: _ => is_blank c | [] => false end.

(** The shape of one declaration [use_decl] reads. *)
Definition use_decl_text (d : str) : Prop :=
  exists body blanks : str, d = s "use " ++ body ++ s ";" ++ blanks /\
    ~ is_infix (s ";") body /\ Forall (fun c => is_blank c = true) blanks.

(** A row whose usage starts with a [use] declaration. *)
Definition row_with_imports_text : str :=
  s "| bytes::complete::tag | `use nom::bytes::complete::tag; tag(ab)` | `abc` |  | first  |"
  ++ [cr; nl] ++ s "next".

(** Text whose only spaces are single spaces right after commas, with a
    space after every comma and no line feed. *)
Inductive comma_spaced : str -> Prop :=
| comma_spaced_nil : comma_spaced []
| comma_spaced_comma (t : str) :
    comma_spaced t -> comma_spaced (","%char :: " "%char :: t)
| comma_spaced_char (c : ascii) (t : str) :
    c <> ","%char -> c <> " "%char -> c <> nl -> comma_spaced t -> comma_spaced (c :: t).

(* DEFINITIONS-END *)

(** * Properties *)

(** The unit tests of [markdown_format_code]. *)
Example markdown_format_code_test1 :
  markdown_format_code (s "abc") = s "`abc`".
Proof. reflexivity. Qed.
Example markdown_format_code_test2 :
  markdown_format_code (s "`abc`") = s "`` `abc` ``".
Proof. reflexivity. Qed.
Example markdown_format_code_test3 :
  markdown_format_code (s " `abc` ") = s "``  `abc`  ``".
Proof. reflexivity. Qed.
Example markdown_format_code_test4 :
  markdown_format_code (s " `abc`") = s "``  `abc` ``".
Proof. reflexivity. Qed.
Example markdown_format_code_test5 :
  markdown_format_code (s "``abc``") = s "``` ``abc`` ```".
Proof. reflexivity. Qed.
Example markdown_format_code_test6 :
  markdown_format_code (s "``") = s "``` `` ```".
Proof. reflexivity. Qed.

(** ** Longest back-quote run *)


Lemma repeat_snoc (c : ascii) (k : nat) : repeat c (S k) = repeat c k ++ [c].
Proof. induction k as [|k IH]; simpl; [done|]. by rewrite <- IH. Qed.

Lemma ascii_eqb_spec' (a b : ascii) : Ascii.eqb a b = true <-> a = b.
Proof. apply Ascii.eqb_eq. Qed.

(** A run of [k] back-quotes that ends a string ending in [c]. *)
Lemma suffix_snoc (z p : str) (c : ascii) (k : nat) :
  z ++ repeat backtick k = p ++ [c] ->
  k = 0 \/ (c = backtick /\ z ++ repeat backtick (k - 1) = p).
Proof.
  destruct k as [|k]; [by left|]. intros H. right.
  rewrite repeat_snoc, app_assoc in H.
  apply app_inj_tail in H as [H1 H2]. simpl. rewrite Nat.sub_0_r. by subst.
Qed.

(** The invariant of the counting loop: [max] is the longest run seen so
    far, [count] the run that ends the prefix seen so far. *)
Lemma count_loop_inv (p : str) :
  let '(mx, cnt) := fold_left count_step p (0, 0) in
  is_infix (repeat backtick mx) p /\
  (forall k, is_infix (repeat backtick k) p -> k <= mx) /\
  is_suffix (repeat backtick cnt) p /\
  (forall k, is_suffix (repeat backtick k) p -> k <= cnt).
Proof.
  induction p as [|c p IH] using rev_ind.
  - simpl. split; [by exists [], []|]. split.
    + intros [|k] (x & y & H); [lia|]. destruct x; discriminate.
    + split; [by exists []|]. intros [|k] (x & H); [lia|].
      destruct x; discriminate.
  - rewrite fold_left_app. destruct (fold_left count_step p (0, 0)) as [mx cnt].
    destruct IH as (Hin & Hmax & Hsuf & Hsmax). simpl.
    destruct (Ascii.eqb c backtick) eqn:Ec.
    + apply ascii_eqb_spec' in Ec. subst c.
      assert (Hsuf' : is_suffix (repeat backtick (S cnt)) (p ++ [backtick])).
      { destruct Hsuf as [z ->]. exists z. by rewrite repeat_snoc, app_assoc. }
      assert (Hsmax' : forall k, is_suffix (repeat backtick k) (p ++ [backtick]) -> k <= S cnt).
      { intros k [z Hz]. symmetry in Hz.
        apply suffix_snoc in Hz as [->|[_ Hz]]; [lia|].
        assert (k - 1 <= cnt) by (apply Hsmax; by exists z). lia. }
      split; [|split; [|split; done]].
      * destruct (Nat.max_spec mx (S cnt)) as [[_ ->]|[_ ->]].
        -- destruct Hsuf' as [z Hz]. exists z, []. by rewrite app_nil_r.
        -- destruct Hin as (x & y & ->). exists x, (y ++ [backtick]).
           by rewrite <- !app_assoc.
      * intros k (x & y & Hxy). destruct y as [|b y _] using rev_ind.
        -- rewrite app_nil_r in Hxy.
           assert (k <= S cnt) by (apply Hsmax'; by exists x). lia.
        -- rewrite !app_assoc in Hxy. apply app_inj_tail in Hxy as [Hxy _].
           assert (k <= mx) by (apply Hmax; exists x, y; by rewrite Hxy, <- app_assoc).
           lia.
    + assert (Hne : c <> backtick).
      { intros ->. by rewrite (proj2 (ascii_eqb_spec' _ _) eq_refl) in Ec. }
      split; [|split; [|split]].
      * destruct Hin as (x & y & ->). exists x, (y ++ [c]).
        by rewrite <- !app_assoc.
      * intros k (x & y & Hxy). destruct y as [|b y _] using rev_ind.
        -- rewrite app_nil_r in Hxy. symmetry in Hxy.
           apply suffix_snoc in Hxy as [->|[? _]]; [lia|done].
        -- rewrite !app_assoc in Hxy. apply app_inj_tail in Hxy as [Hxy _].
           apply Hmax. exists x, y. by rewrite Hxy, <- app_assoc.
      * exists (p ++ [c]). by rewrite app_nil_r.
      * intros k [z Hz]. symmetry in Hz.
        apply suffix_snoc in Hz as [->|[? _]]; [lia|done].
Qed.

Lemma longest_backtick_run_spec (t : str) :
  is_infix (repeat backtick (longest_backtick_run t)) t /\
  ~ is_infix (repeat backtick (S (longest_backtick_run t))) t.
Proof.
  pose proof (count_loop_inv t) as Hinv. unfold longest_backtick_run.
  destruct (fold_left count_step t (0, 0)) as [mx cnt].
  destruct Hinv as (Hin & Hmax & _). simpl. split; [done|].
  intros H. apply (Hmax (S mx)) in H. lia.
Qed.

(** ** Shape of the result of [markdown_format_code] *)

Lemma starts_with_spec (c : ascii) (t : str) :
  starts_with c t = true <-> text_starts c t.
Proof.
  destruct t as [|a t]; simpl.
  - split; [done|]. by intros [r ?].
  - rewrite ascii_eqb_spec'. split; [intros ->; by exists t|].
    by intros [r [= -> _]].
Qed.

Lemma ends_with_spec (c : ascii) (t : str) :
  ends_with c t = true <-> text_ends c t.
Proof.
  unfold ends_with. rewrite starts_with_spec. split.
  - intros [r Hr]. exists (rev r).
    by rewrite <- (rev_involutive t), Hr.
  - intros [r ->]. exists (rev r). by rewrite rev_app_distr.
Qed.

Lemma repeat_prefix_ends (c : ascii) (n : nat) (x l : str) :
  x ++ l = repeat c n -> x <> [] -> text_ends c x.
Proof.
  intros H Hx. destruct (exists_last Hx) as (x0 & a & ->). exists x0.
  assert (a ∈ repeat c n) as Ha.
  { rewrite <- H. apply elem_of_app. left. apply elem_of_app. right. by left. }
  apply list_elem_of_In, repeat_spec in Ha. by subst.
Qed.

Lemma repeat_suffix_starts (c : ascii) (n : nat) (k y : str) :
  k ++ y = repeat c n -> y <> [] -> text_starts c y.
Proof.
  intros H Hy. destruct y as [|a y]; [done|]. exists y.
  assert (a ∈ repeat c n) as Ha.
  { rewrite <- H. apply elem_of_app. right. by left. }
  apply list_elem_of_In, repeat_spec in Ha. by subst.
Qed.

(** A maximal run of [L] back-quotes in [D ++ mid ++ D], where [D] is
    itself [L] back-quotes and [mid] has no such run, is one of the two
    [D]s. *)
Lemma frame_runs (L : nat) (mid x y : str) :
  ~ is_infix (repeat backtick L) mid ->
  repeat backtick L ++ mid ++ repeat backtick L = x ++ repeat backtick L ++ y ->
  ~ text_ends backtick x -> ~ text_starts backtick y -> x = [] \/ y = [].
Proof.
  intros Hmid Heq Hx Hy.
  destruct x as [|a x]; [by left|]. destruct y as [|b y]; [by right|].
  exfalso. apply app_eq_app in Heq as [l [[H1 H2]|[H1 H2]]].
  - apply Hx. by apply (repeat_prefix_ends _ L _ l); [rewrite H1|].
  - rewrite app_assoc in H2. apply app_eq_app in H2 as [k [[H3 H4]|[H3 H4]]].
    + apply Hmid. exists l, k. by rewrite H3, <- app_assoc.
    + apply Hy. by apply (repeat_suffix_starts _ L k); [rewrite H4|].
Qed.

Lemma infix_padded (n : nat) (t : str) :
  is_infix (repeat backtick (S n)) ([space] ++ t ++ [space]) ->
  is_infix (repeat backtick (S n)) t.
Proof.
  intros (x & y & H). destruct x as [|a x]; [discriminate|].
  injection H as _ H. destruct y as [|e y _] using rev_ind.
  - rewrite app_nil_r in H. symmetry in H.
    change (backtick :: repeat backtick n) with (repeat backtick (S n)) in H.
    apply suffix_snoc in H as [?|[? _]]; discriminate.
  - assert (H' : t ++ [space] = (x ++ repeat backtick (S n) ++ y) ++ [e]).
    { rewrite H, <- app_assoc. f_equal. simpl. by rewrite <- app_assoc. }
    apply app_inj_tail in H' as [H' _].
    by exists x, y.
Qed.

(** The two facts the proofs about the delimiter use: the padded content
    has no run as long as the delimiter, and it is either empty or neither
    starts nor ends with a back-quote. *)
Lemma padded_content_facts (t : str) :
  exists pad,
    markdown_format_code t =
      repeat backtick (longest_backtick_run t + 1) ++ (pad ++ t ++ pad) ++
      repeat backtick (longest_backtick_run t + 1) /\
    ~ is_infix (repeat backtick (longest_backtick_run t + 1)) (pad ++ t ++ pad) /\
    (pad ++ t ++ pad = [] \/
     (~ text_starts backtick (pad ++ t ++ pad) /\
      ~ text_ends backtick (pad ++ t ++ pad))) /\
    (t <> [] -> pad ++ t ++ pad <> []).
Proof.
  destruct (longest_backtick_run_spec t) as [_ Hno].
  rewrite Nat.add_1_r.
  unfold markdown_format_code, repeat_char. rewrite Nat.add_1_r.
  destruct ((starts_with backtick t || ends_with backtick t)
            || (starts_with space t && ends_with space t)) eqn:Hc.
  - exists [space]. split; [by rewrite <- !app_assoc|]. split; [|split].
    + intros H. by apply Hno, infix_padded.
    + right. split.
      * intros [r Hr]. discriminate.
      * intros [r Hr]. rewrite app_assoc in Hr.
        apply app_inj_tail in Hr as [_ ?]. discriminate.
    + intros _. discriminate.
  - exists []. simpl. rewrite app_nil_r.
    split; [by rewrite ?app_assoc|]. split; [done|]. split; [|done].
    apply orb_false_iff in Hc as [Hc1 Hc2].
    apply orb_false_iff in Hc1 as [Hs He].
    right. split.
    + intros Hst. apply starts_with_spec in Hst. congruence.
    + intros Hen. apply ends_with_spec in Hen. congruence.
Qed.

(** C3: [markdown_format_code text] wraps [text] in a delimiter of
    back-quotes one longer than the longest run of back-quotes in [text]
    (a run of [m] back-quotes occurs in [text], none of [m + 1] does), and
    pads both ends with one space exactly when [text] starts or ends with a
    back-quote, or starts and ends with a space. *)
Theorem markdown_format_code_delimiter_and_padding (text : str) :
  let m := longest_backtick_run text in
  let delim := repeat backtick (S m) in
  is_infix (repeat backtick m) text /\ ~ is_infix delim text /\
  exists pad : str,
    markdown_format_code text = delim ++ pad ++ text ++ pad ++ delim /\
    ((text_starts backtick text \/ text_ends backtick text \/
      (text_starts space text /\ text_ends space text)) -> pad = [space]) /\
    (~ (text_starts backtick text \/ text_ends backtick text \/
        (text_starts space text /\ text_ends space text)) -> pad = []).
Proof.
  cbv zeta. destruct (longest_backtick_run_spec text) as [Hin Hno].
  split; [done|]. split; [done|].
  unfold markdown_format_code, repeat_char. rewrite Nat.add_1_r.
  assert (Hc : ((starts_with backtick text || ends_with backtick text)
                || (starts_with space text && ends_with space text)) = true <->
               (text_starts backtick text \/ text_ends backtick text \/
                (text_starts space text /\ text_ends space text))).
  { rewrite <- !starts_with_spec, <- !ends_with_spec.
    rewrite !orb_true_iff, andb_true_iff. tauto. }
  destruct ((starts_with backtick text || ends_with backtick text)
            || (starts_with space text && ends_with space text)).
  - exists [space]. split; [done|]. split; [done|].
    intros H. exfalso. by apply H, Hc.
  - exists []. split; [done|]. split; [|done].
    intros H. apply Hc in H. discriminate.
Qed.

(** C4: in the result of [markdown_format_code s], a maximal run of
    back-quotes of the delimiter's length only occurs at the two ends of the
    result; when [s] is not empty, both ends are such maximal runs. *)
Theorem markdown_format_code_delimiter_only_at_ends (t : str) :
  let L := longest_backtick_run t + 1 in
  let r := markdown_format_code t in
  (forall x y, maximal_run_at L r x y -> x = [] \/ y = []) /\
  (t <> [] ->
   (exists y, maximal_run_at L r [] y) /\ (exists x, maximal_run_at L r x [])).
Proof.
  cbv zeta.
  destruct (padded_content_facts t) as (pad & Hr & Hno & Hedge & Hne).
  rewrite Hr. split.
  - intros x y (Heq & Hx & Hy). by apply (frame_runs (longest_backtick_run t + 1) (pad ++ t ++ pad)).
  - intros Ht. specialize (Hne Ht).
    destruct Hedge as [?|[Hs He]]; [done|]. split.
    + exists ((pad ++ t ++ pad) ++ repeat backtick (longest_backtick_run t + 1)).
      split; [done|]. split.
      * intros [r' Hr']. by destruct r'.
      * intros [r' Hr']. apply Hs.
        destruct (pad ++ t ++ pad) as [|a m]; [done|].
        injection Hr' as -> _. by exists m.
    + exists (repeat backtick (longest_backtick_run t + 1) ++ (pad ++ t ++ pad)).
      split; [by rewrite app_nil_r, <- !app_assoc|]. split.
      * intros [r' Hr']. apply He.
        destruct (exists_last Hne) as (m & a & Hm). rewrite Hm in Hr' |- *.
        rewrite app_assoc in Hr'. apply app_inj_tail in Hr' as [_ ->].
        by exists m.
      * intros [r' Hr']. discriminate.
Qed.

(** ** [parse_code_span] *)

Example parse_code_span_test1 :
  parse_code_span (s "`` `a` `` | x") = Done (s " | x") (s "`a`").
Proof. reflexivity. Qed.
Example parse_code_span_test2 :
  parse_code_span (s "` a`|") = Done (s "|") (s " a").
Proof. reflexivity. Qed.
Example parse_code_span_test3 :
  parse_code_span (s "` `|") = Done (s "|") (s " ").
Proof. reflexivity. Qed.

Lemma str_prefixb_spec (pat input : str) :
  str_prefixb pat input = true -> input = pat ++ drop (length pat) input.
Proof.
  revert input. induction pat as [|p pat IH]; intros [|c input]; simpl;
    try done.
  intros [Hp Hr]%andb_true_iff. apply ascii_eqb_spec' in Hp as ->.
  f_equal. by apply IH.
Qed.

Lemma tag_spec (pat input r x : str) :
  tag pat input = Done r x -> input = pat ++ r /\ x = pat.
Proof.
  unfold tag. destruct (str_prefixb pat input) eqn:E; [|done].
  intros [= <- <-]. split; [|done]. by apply str_prefixb_spec.
Qed.

Lemma take_until_spec (pat input r x : str) :
  take_until pat input = Done r x -> input = x ++ r.
Proof.
  unfold take_until. destruct (find_substring pat input); [|done].
  intros [= <- <-]. by rewrite take_drop.
Qed.

Lemma take_while_spec (f : ascii -> bool) (input : str) :
  let '(p, r) := take_while f input in
  input = p ++ r /\ Forall (fun c => f c = true) p.
Proof.
  induction input as [|c input IH]; simpl; [done|].
  destruct (f c) eqn:Ef; [|done].
  destruct (take_while f input) as [p r]. destruct IH as [-> Hp].
  split; [done|]. by constructor.
Qed.

Lemma is_a_backtick_spec (input r x : str) :
  is_a [backtick] input = Done r x ->
  input = x ++ r /\ x <> [] /\ Forall (eq backtick) x.
Proof.
  unfold is_a. pose proof (take_while_spec (in_set [backtick]) input) as Hs.
  destruct (take_while (in_set [backtick]) input) as [p r']. destruct Hs as [-> Hp].
  destruct p as [|c p]; [done|]. intros [= <- <-].
  split; [done|]. split; [done|].
  eapply Forall_impl; [exact Hp|]. intros a Ha.
  change (Ascii.eqb backtick a || false = true) in Ha.
  rewrite orb_false_r in Ha. by apply ascii_eqb_spec' in Ha.
Qed.

Lemma strip_paired_spaces_spec (raw : str) :
  ((text_starts space raw /\ text_ends space raw /\ 2 <= length raw) ->
   raw = [space] ++ strip_paired_spaces raw ++ [space]) /\
  (~ (text_starts space raw /\ text_ends space raw /\ 2 <= length raw) ->
   strip_paired_spaces raw = raw).
Proof.
  unfold strip_paired_spaces.
  destruct ((2 <=? length raw) && starts_with space raw && ends_with space raw) eqn:E.
  - apply andb_true_iff in E as [[Hl Hs]%andb_true_iff He].
    apply Nat.leb_le in Hl. apply starts_with_spec in Hs as [r ->].
    apply ends_with_spec in He as [m Hm].
    split; [|intros H; exfalso; apply H; split; [by exists r|]; split;
             [by exists m; rewrite Hm|done]].
    intros _. destruct m as [|b m].
    { destruct r; [simpl in Hl; lia|discriminate]. }
    injection Hm as <- ->.
    replace (length (space :: m ++ [space]) - 1) with (S (length m))
      by (simpl; rewrite length_app; simpl; lia).
    simpl. by rewrite take_app_length.
  - split; [|done]. intros (Hs & He & Hl). exfalso.
    apply starts_with_spec in Hs. apply ends_with_spec in He.
    apply Nat.leb_le in Hl. by rewrite Hl, Hs, He in E.
Qed.

(** C8: a code span extracted by [parse_code_span] is the raw text [raw]
    between two equal runs of back-quotes; one leading and one trailing
    space are removed from [raw] only when both are there (and are two
    distinct characters); when only one of them is there, [raw] is returned
    unchanged. *)
Theorem parse_code_span_strips_paired_spaces_only (input rest code : str) :
  parse_code_span input = Done rest code ->
  exists ticks raw,
    input = ticks ++ raw ++ ticks ++ rest /\
    ticks <> [] /\ Forall (eq backtick) ticks /\
    ((text_starts space raw /\ text_ends space raw /\ 2 <= length raw) ->
     raw = [space] ++ code ++ [space]) /\
    ((text_starts space raw /\ ~ text_ends space raw) \/
     (~ text_starts space raw /\ text_ends space raw) -> code = raw) /\
    (code <> raw -> text_starts space raw /\ text_ends space raw).
Proof.
  unfold parse_code_span.
  destruct (is_a [backtick] input) as [i1 ticks|] eqn:E1; [|done]. simpl.
  destruct (take_until ticks i1) as [i2 raw|] eqn:E2; [|done]. simpl.
  destruct (tag ticks i2) as [i3 t3|] eqn:E3; [|done]. simpl.
  intros [= <- <-].
  apply is_a_backtick_spec in E1 as (-> & Hne & Hall).
  apply take_until_spec in E2 as ->. apply tag_spec in E3 as [-> _].
  destruct (strip_paired_spaces_spec raw) as [Hboth Hnot].
  exists ticks, raw. split; [done|]. split; [done|]. split; [done|].
  split; [done|]. split.
  - intros [[Hs He]|[Hs He]]; apply Hnot; tauto.
  - intros Hc. split.
    + destruct (starts_with space raw) eqn:Es; [by apply starts_with_spec|].
      exfalso. apply Hc, Hnot. intros (Hs & _).
      apply starts_with_spec in Hs. congruence.
    + destruct (ends_with space raw) eqn:Ee; [by apply ends_with_spec|].
      exfalso. apply Hc, Hnot. intros (_ & He & _).
      apply ends_with_spec in He. congruence.
Qed.

Lemma parse_code_span_strips_paired_spaces_only_witness :
  parse_code_span (s "`` `a` `` |") = Done (s " |") (s "`a`") /\
  exists ticks raw,
    s "`` `a` `` |" = ticks ++ raw ++ ticks ++ s " |" /\
    ticks <> [] /\ Forall (eq backtick) ticks /\
    ((text_starts space raw /\ text_ends space raw /\ 2 <= length raw) ->
     raw = [space] ++ s "`a`" ++ [space]) /\
    ((text_starts space raw /\ ~ text_ends space raw) \/
     (~ text_starts space raw /\ text_ends space raw) -> s "`a`" = raw) /\
    (s "`a`" <> raw -> text_starts space raw /\ text_ends space raw).
Proof.
  split; [reflexivity|].
  apply (parse_code_span_strips_paired_spaces_only (s "`` `a` `` |")).
  reflexivity.
Defined.

(** ** The template segmenter *)

Example do_code_blocks_test1 :
  do_code_blocks (s "a" ++ [nl] ++ s "```ignore" ++ [nl] ++ s "x" ++ [nl] ++ s "```b")
  = BOk ([], s "a" ++ [nl] ++ s "```rust" ++ [nl] ++ s "x" ++ [nl; nl] ++ s "```b").
Proof. reflexivity. Qed.

Lemma covers_app (cs1 cs2 : list Component) (a b : str) :
  covers cs1 a -> covers cs2 b -> covers (cs1 ++ cs2) (a ++ b).
Proof.
  induction 1 as [|t cs r Ht _ IH|l le c cs r Hle _ IH]; intros H2; simpl; [done|..].
  - rewrite <- app_assoc. constructor; [done|]. by apply IH.
  - rewrite <- !app_assoc. constructor; [done|]. by apply IH.
Qed.

Lemma not_line_ending_spec (input r x : str) :
  not_line_ending input = Done r x -> input = x ++ r.
Proof.
  unfold not_line_ending. destruct (find_line_char input) as [i|].
  - destruct (starts_with cr (drop i input)); [destruct (str_prefixb [cr; nl] (drop i input))|];
      try done; intros [= <- <-]; by rewrite take_drop.
  - intros [= <- <-]. by rewrite app_nil_r.
Qed.

Lemma line_ending_spec (input r x : str) :
  line_ending input = Done r x -> input = x ++ r /\ (x = [nl] \/ x = [cr; nl]).
Proof.
  unfold line_ending.
  destruct (str_prefixb [nl] input) eqn:E1.
  - intros [= <- <-]. split; [|by left]. by apply (str_prefixb_spec [nl]).
  - destruct (str_prefixb [cr; nl] input) eqn:E2; [|done].
    intros [= <- <-]. split; [|by right]. by apply (str_prefixb_spec [cr; nl]).
Qed.

Lemma parse_outside_code_blocks_spec (input r : str) (c : Component) :
  parse_outside_code_blocks input = Done r c ->
  exists text, c = Text text /\ text <> [] /\ input = text ++ r.
Proof.
  unfold parse_outside_code_blocks, alt, rest.
  destruct (take_until fence input) as [r1 t1|] eqn:E; simpl.
  - apply take_until_spec in E as ->.
    destruct t1 as [|a t1]; [done|]. intros [= <- <-]. by eexists.
  - destruct input as [|a input]; [done|]. intros [= <- <-].
    eexists. split; [done|]. by rewrite app_nil_r.
Qed.

Lemma parse_code_block_spec (input r : str) (c : Component) :
  parse_code_block input = Done r c ->
  exists language le code, c = CodeBlock language code /\
    (le = [nl] \/ le = [cr; nl]) /\
    input = fence ++ language ++ le ++ code ++ fence ++ r.
Proof.
  unfold parse_code_block, terminated.
  destruct (tag fence input) as [i1 f1|] eqn:E1; [|done]. simpl.
  destruct (not_line_ending i1) as [i2 l|] eqn:E2; [|done]. simpl.
  destruct (line_ending i2) as [i3 le|] eqn:E3; [|done]. simpl.
  destruct (take_until fence i3) as [i4 code|] eqn:E4; [|done]. simpl.
  destruct (tag fence i4) as [i5 f5|] eqn:E5; [|done]. simpl.
  intros [= <- <-].
  apply tag_spec in E1 as [-> _]. apply not_line_ending_spec in E2 as ->.
  apply line_ending_spec in E3 as [-> Hle]. apply take_until_spec in E4 as ->.
  apply tag_spec in E5 as [-> _].
  exists l, le, code. split; [done|]. split; [done|]. by rewrite <- ?app_assoc.
Qed.

Lemma component_spec (input r : str) (c : Component) :
  alt parse_code_block parse_outside_code_blocks input = Done r c ->
  exists pre, input = pre ++ r /\ covers [c] pre.
Proof.
  unfold alt. destruct (parse_code_block input) as [r1 c1|] eqn:E.
  - intros [= <- <-]. apply parse_code_block_spec in E as (l & le & code & -> & Hle & ->).
    exists (fence ++ l ++ le ++ code ++ fence). split.
    + by rewrite <- !app_assoc.
    + replace (fence ++ l ++ le ++ code ++ fence)
        with (fence ++ l ++ le ++ code ++ fence ++ []) by (by rewrite app_nil_r).
      constructor; [done|constructor].
  - intros H. apply parse_outside_code_blocks_spec in H as (t & -> & Ht & ->).
    exists t. split; [done|]. replace t with (t ++ []) at 2 by apply app_nil_r.
    constructor; [done|constructor].
Qed.

Lemma many_loop_spec (fuel : nat) (input r : str) (acc acc' : list Component) :
  many_loop fuel (alt parse_code_block parse_outside_code_blocks) input acc = Done r acc' ->
  exists cs pre, acc' = acc ++ cs /\ input = pre ++ r /\ covers cs pre.
Proof.
  revert input acc. induction fuel as [|fuel IH]; intros input acc; simpl.
  - intros [= <- <-]. exists [], []. rewrite app_nil_r. split; [done|].
    split; [done|constructor].
  - destruct (alt parse_code_block parse_outside_code_blocks input) as [i1 o|] eqn:E.
    + destruct (length i1 =? length input); [done|].
      intros H. apply IH in H as (cs & pre & -> & -> & Hcov).
      apply component_spec in E as (pre0 & Hpre0 & Hc).
      exists (o :: cs), (pre0 ++ pre). split; [by rewrite <- app_assoc|].
      split; [by rewrite <- app_assoc, <- Hpre0|].
      by apply (covers_app [o] cs).
    + intros [= <- <-]. exists [], []. rewrite app_nil_r. split; [done|].
      split; [done|constructor].
Qed.

Lemma many1_spec (input r : str) (cs : list Component) :
  many1 (alt parse_code_block parse_outside_code_blocks) input = Done r cs ->
  exists pre, input = pre ++ r /\ covers cs pre.
Proof.
  unfold many1.
  destruct (alt parse_code_block parse_outside_code_blocks input) as [i1 o|] eqn:E; [|done].
  destruct (length i1 =? length input); [done|].
  intros H. apply many_loop_spec in H as (cs' & pre & -> & -> & Hcov).
  apply component_spec in E as (pre0 & -> & Hc).
  exists (pre0 ++ pre). split; [by rewrite <- app_assoc|].
  by apply (covers_app [o] cs').
Qed.

(** The token text of a generated [use] item, as [sort_by_key] compares
    it. *)
Example use_item_text :
  use_item (s "bytes::complete") (s "tag") =
    s "# [allow (unused_imports)] use nom :: bytes :: complete :: tag ;".
Proof. reflexivity. Qed.

(** C2 (code bug): a code block is written back as
    [format!("```{language}\n{code}\n```")], but its [code] comes from
    [take_until("```")] and so already ends with the line feed before the
    closing fence; a text component is written back verbatim.  On the
    one-block template below the pass succeeds, and the emitted document has
    one more line feed before the closing fence than the template. *)
Lemma do_code_blocks_extra_line_feed :
  (do_code_blocks (s "```rust" ++ [nl] ++ s "foo" ++ [nl] ++ s "```") =
     BOk ([(s "examples/example0.rs", s "foo" ++ [nl] ++ test_suffix)],
          s "```rust" ++ [nl] ++ s "foo" ++ [nl; nl] ++ s "```")) /\
  (s "```rust" ++ [nl] ++ s "foo" ++ [nl; nl] ++ s "```" <>
   s "```rust" ++ [nl] ++ s "foo" ++ [nl] ++ s "```").
Proof. split; [reflexivity | discriminate]. Qed.

(** Whenever [do_code_blocks] succeeds, [many1] has consumed the whole
    template, and its components, in order, cover the template with no gap
    and no overlap: each [Text] verbatim and non-empty, each [CodeBlock] as
    opening fence, tag, the line ending of the tag line, code and closing
    fence. *)
Theorem do_code_blocks_segments_input (input : str) (files : list (str * str)) (output : str) :
  do_code_blocks input = BOk (files, output) ->
  exists comps,
    many1 (alt parse_code_block parse_outside_code_blocks) input = Done [] comps /\
    covers comps input.
Proof.
  unfold do_code_blocks.
  destruct (many1 (alt parse_code_block parse_outside_code_blocks) input)
    as [r comps|] eqn:E; [|done].
  case_bool_decide as Hr; [|done]. subst r. intros _.
  exists comps. split; [done|].
  apply many1_spec in E as (pre & -> & Hcov). by rewrite app_nil_r.
Qed.

Lemma do_code_blocks_segments_input_witness :
  exists comps,
    many1 (alt parse_code_block parse_outside_code_blocks)
      (s "a" ++ [nl] ++ s "```ignore" ++ [nl] ++ s "x" ++ [nl] ++ s "```b") = Done [] comps /\
    covers comps (s "a" ++ [nl] ++ s "```ignore" ++ [nl] ++ s "x" ++ [nl] ++ s "```b").
Proof.
  apply (do_code_blocks_segments_input _ []
    (s "a" ++ [nl] ++ s "```rust" ++ [nl] ++ s "x" ++ [nl; nl] ++ s "```b")).
  reflexivity.
Defined.

(** ** Result formatting *)

(** The unit tests of [subslice_offset_bytes] on ["a\nb\nc"] and
    ["foobar"] (placed at address 1000). *)
Example subslice_offset_test :
  let string := {| ptr := 1000; len := 5 |} in
  subslice_offset_bytes_str string {| ptr := 1000; len := 1 |} = Some 0%Z /\
  subslice_offset_bytes_str string {| ptr := 1002; len := 1 |} = Some 2%Z /\
  subslice_offset_bytes_str string {| ptr := 1004; len := 1 |} = Some 4%Z /\
  subslice_offset_bytes_str string {| ptr := 50; len := 5 |} = None /\
  let str1 := {| ptr := 1000; len := 3 |} in
  subslice_offset_bytes_str str1 {| ptr := 1003; len := 3 |} = None /\
  subslice_offset_bytes_str str1 {| ptr := 1003; len := 0 |} = None /\
  subslice_offset_bytes_str str1 {| ptr := 1002; len := 1 |} = Some 2%Z.
Proof. repeat split. Qed.

Example format_remainder_test :
  format_remainder (s "[" ++ [nl] ++ s "    0x00," ++ [nl] ++ s "    0x01," ++ [nl] ++ s "]")
  = s "`&[0x00, 0x01]`".
Proof. reflexivity. Qed.

(** The offset example of the spec: in ["abcd"], the sub-span starting at
    index 2 is reported at byte offset 2. *)
Example format_iresult_offset_test :
  format_iresult StrInput {| ptr := 4096; len := 4 |}
    (IErr (Error {| ptr := 4098; len := 2 |} (s "Tag")))
  = Some (s "Error<br>Byte offset: 2<br>Code: Tag").
Proof. reflexivity. Qed.

Lemma checked_add_in_range (a b : Z) :
  (a + b < usize_modulus)%Z -> checked_add a b = Some (a + b)%Z.
Proof. intros H. unfold checked_add. by rewrite (proj2 (Z.ltb_lt _ _) H). Qed.

Lemma subslice_offset_bytes_spec (k : InputKind) (input loc : Slice) :
  well_formed input -> well_formed loc ->
  subslice_offset_bytes k input loc =
    if decide (located k input loc) then Some (ptr loc - ptr input)%Z else None.
Proof.
  intros (Hi1 & Hi2 & Hi3) (Hl1 & Hl2 & Hl3).
  destruct k; simpl; unfold subslice_offset_bytes_str, subslice_offset_bytes_u8;
    rewrite !checked_add_in_range by done;
    destruct (decide _) as [(Hs & Hk)|Hn]; unfold is_subspan in *.
  - destruct Hs as [Hs1 Hs2].
    destruct Hk as [?|Hk]; [discriminate|].
    destruct (ptr loc <? ptr input)%Z eqn:E1; [apply Z.ltb_lt in E1; lia|].
    destruct (ptr loc =? ptr input + len input)%Z eqn:E2; [apply Z.eqb_eq in E2; lia|].
    destruct (ptr input + len input <? ptr loc + len loc)%Z eqn:E3;
      [apply Z.ltb_lt in E3; lia|]. simpl.
    destruct (ptr input + len input <? ptr loc)%Z eqn:E4; [apply Z.ltb_lt in E4; lia|].
    done.
  - destruct (ptr loc <? ptr input)%Z eqn:E1; [done|].
    destruct (ptr loc =? ptr input + len input)%Z eqn:E2; [done|].
    destruct (ptr input + len input <? ptr loc + len loc)%Z eqn:E3; [done|].
    apply Z.ltb_ge in E1, E3. apply Z.eqb_neq in E2. exfalso. apply Hn.
    split; [unfold is_subspan; lia|]. by right.
  - destruct Hs as [Hs1 Hs2].
    destruct (ptr loc <? ptr input)%Z eqn:E1; [apply Z.ltb_lt in E1; lia|].
    destruct (ptr input + len input <? ptr loc + len loc)%Z eqn:E3;
      [apply Z.ltb_lt in E3; lia|]. done.
  - destruct (ptr loc <? ptr input)%Z eqn:E1; [done|].
    destruct (ptr input + len input <? ptr loc + len loc)%Z eqn:E3; [done|].
    apply Z.ltb_ge in E1, E3. exfalso. apply Hn.
    split; [unfold is_subspan; lia|]. by left.
Qed.

(** C7 (as stated, refuted): for a [str] input, the empty location at the
    very end of the input is a sub-span of it, yet [format_iresult] panics
    instead of rendering its offset. *)
Lemma format_iresult_str_end_subspan_aborts :
  is_subspan {| ptr := 4096; len := 4 |} {| ptr := 4100; len := 0 |} /\
  format_iresult StrInput {| ptr := 4096; len := 4 |}
    (IErr (Error {| ptr := 4100; len := 0 |} (s "Eof"))) = None.
Proof. split; [unfold is_subspan; simpl; lia | reflexivity]. Qed.

(** C7 (amended): for an [Error] or [Failure] outcome, [format_iresult]
    finds the location by address containment in the input and renders the
    kind tag, the byte offset [ptr loc - ptr input] and the code when the
    location is a sub-span of the input (for a [str] input, one that does
    not start at the input's end); otherwise it panics. *)
Theorem format_iresult_error_located (k : InputKind) (input loc : Slice) (code : str) :
  well_formed input -> well_formed loc ->
  (located k input loc ->
   format_iresult k input (IErr (Error loc code)) =
     Some (error_line (s "Error") (ptr loc - ptr input) code) /\
   format_iresult k input (IErr (Failure loc code)) =
     Some (error_line (s "Failure") (ptr loc - ptr input) code)) /\
  (~ located k input loc ->
   format_iresult k input (IErr (Error loc code)) = None /\
   format_iresult k input (IErr (Failure loc code)) = None).
Proof.
  intros Hi Hl. simpl. rewrite (subslice_offset_bytes_spec k input loc Hi Hl).
  split; intros H; destruct (decide (located k input loc)); done.
Qed.

Lemma format_iresult_error_located_witness :
  well_formed {| ptr := 4096; len := 4 |} /\ well_formed {| ptr := 4098; len := 2 |} /\
  located StrInput {| ptr := 4096; len := 4 |} {| ptr := 4098; len := 2 |} /\
  format_iresult StrInput {| ptr := 4096; len := 4 |}
    (IErr (Error {| ptr := 4098; len := 2 |} (s "Tag"))) =
    Some (error_line (s "Error") 2 (s "Tag")).
Proof.
  assert (Hi : well_formed {| ptr := 4096; len := 4 |})
    by (unfold well_formed, usize_modulus; simpl; lia).
  assert (Hl : well_formed {| ptr := 4098; len := 2 |})
    by (unfold well_formed, usize_modulus; simpl; lia).
  assert (Hloc : located StrInput {| ptr := 4096; len := 4 |} {| ptr := 4098; len := 2 |}).
  { split; [unfold is_subspan; simpl; lia|]. right. simpl. lia. }
  split; [exact Hi|]. split; [exact Hl|]. split; [exact Hloc|].
  exact (proj1 (proj1 (format_iresult_error_located StrInput _ _ (s "Tag") Hi Hl) Hloc)).
Defined.

(** C10: at the end boundary the two implementations differ: for a [str]
    parent the empty subslice at its end has no offset, for a byte-slice
    parent it has offset [len parent]; so [format_iresult] on a [str] input
    panics for an [Error] or [Failure] located at the empty remainder at the
    end of the input. *)
Theorem subslice_offset_end_asymmetry (parent : Slice) (code : str) :
  well_formed parent ->
  let at_end := {| ptr := ptr parent + len parent; len := 0 |} in
  subslice_offset_bytes_str parent at_end = None /\
  subslice_offset_bytes_u8 parent at_end = Some (len parent) /\
  format_iresult StrInput parent (IErr (Error at_end code)) = None /\
  format_iresult StrInput parent (IErr (Failure at_end code)) = None.
Proof.
  intros Hp. cbv zeta. pose proof Hp as (Hp1 & Hp2 & Hp3).
  assert (He : well_formed {| ptr := ptr parent + len parent; len := 0 |}).
  { destruct Hp as (? & ? & ?). unfold well_formed; simpl; lia. }
  pose proof (subslice_offset_bytes_spec StrInput _ _ Hp He) as Hs.
  pose proof (subslice_offset_bytes_spec BytesInput _ _ Hp He) as Hb.
  simpl in Hs, Hb.
  destruct (decide _) as [[_ [?|Hk]]|Hn] in Hs; [discriminate|simpl in Hk; lia|].
  destruct (decide _) as [_|Hn'] in Hb.
  - simpl. rewrite Hs, Hb. repeat split. f_equal. lia.
  - exfalso. apply Hn'. split; [unfold is_subspan; simpl; lia|]. by left.
Qed.

Lemma subslice_offset_end_asymmetry_witness :
  well_formed {| ptr := 4096; len := 4 |} /\
  subslice_offset_bytes_str {| ptr := 4096; len := 4 |} {| ptr := 4100; len := 0 |} = None /\
  subslice_offset_bytes_u8 {| ptr := 4096; len := 4 |} {| ptr := 4100; len := 0 |} = Some 4%Z /\
  format_iresult StrInput {| ptr := 4096; len := 4 |}
    (IErr (Error {| ptr := 4100; len := 0 |} (s "Eof"))) = None /\
  format_iresult StrInput {| ptr := 4096; len := 4 |}
    (IErr (Failure {| ptr := 4100; len := 0 |} (s "Eof"))) = None.
Proof.
  assert (Hp : well_formed {| ptr := 4096; len := 4 |})
    by (unfold well_formed, usize_modulus; simpl; lia).
  split; [exact Hp|].
  exact (subslice_offset_end_asymmetry {| ptr := 4096; len := 4 |} (s "Eof") Hp).
Defined.

(** ** The rows of [main] *)

Example main_two_rows_test :
  @main syn_accept_all [(s "pre", [row_tag1; row_tag2])] (s "end") =
  BOk ([WritePreamble (s "pre");
        RowBlock [use_item (s "bytes::complete") (s "tag")] (s "abc")
          (LetOutput (s "tag(ab)")) (url_string tag_url)
          (s "`tag(ab)`") (s "`abc`") (s "first");
        RowBlock [use_item (s "bytes::complete") (s "tag")] (s "xyz")
          (LetOutput (s "tag(xy)")) []
          (s "`tag(xy)`") (s "`xyz`") (s "second");
        WriteRemainder (s "end")],
       [use_item (s "bytes::complete") (s "tag")]).
Proof. vm_compute. reflexivity. Qed.

(** ** The import ledger *)

Lemma ledger_inv_nil : ledger_inv [] (∅, ∅).
Proof.
  split; [|split].
  - intros n t. by rewrite lookup_empty.
  - intros n t Hin. by apply elem_of_nil in Hin.
  - intros n. split; [set_solver|]. intros (t1 & t2 & _ & Hin & _).
    by apply elem_of_nil in Hin.
Qed.

Lemma ledger_inv_step (recs : list (str * Item)) (l : gmap str Item * gset str)
    (r : str * Item) :
  ledger_inv recs l -> ledger_inv (recs ++ [r]) (record_use l r).
Proof.
  destruct l as [uses conf], r as [n0 t0]. intros (Ha & Hb & Hc).
  assert (Hmem : forall n t, (n, t) ∈ recs ++ [(n0, t0)] <->
                   (n, t) ∈ recs \/ (n = n0 /\ t = t0)).
  { intros n t. rewrite elem_of_app, list_elem_of_singleton.
    split.
    - intros [?|H]; [by left|]. right. by injection H as -> ->.
    - intros [?|[-> ->]]; [by left|by right]. }
  unfold record_use.
  (* the part on [uses] is the same in every case *)
  assert (Hab : (forall n t, <[n0:=t0]> uses !! n = Some t -> (n, t) ∈ recs ++ [(n0, t0)]) /\
                (forall n t, (n, t) ∈ recs ++ [(n0, t0)] -> is_Some (<[n0:=t0]> uses !! n))).
  { split.
    - intros n t Hn. apply Hmem. destruct (decide (n = n0)) as [->|Hne].
      + rewrite lookup_insert_eq in Hn. injection Hn as ->. by right.
      + rewrite lookup_insert_ne in Hn by congruence. left. by apply Ha.
    - intros n t Hn. destruct (decide (n = n0)) as [->|Hne].
      + rewrite lookup_insert_eq. by eexists.
      + rewrite lookup_insert_ne by congruence.
        apply Hmem in Hn as [Hn|[? _]]; [by eapply Hb|done]. }
  destruct Hab as [Ha' Hb'].
  destruct (uses !! n0) as [old|] eqn:Eold.
  - pose proof (Ha _ _ Eold) as Hold.
    case_bool_decide as Hdiff; (split; [done|]); (split; [done|]); intros n.
    + rewrite elem_of_union, elem_of_singleton, Hc. split.
      * intros [->|(t1 & t2 & Hne & H1 & H2)].
        -- exists old, t0. split; [done|]. split; apply Hmem; [by left|by right].
        -- exists t1, t2. split; [done|]. split; apply Hmem; by left.
      * intros (t1 & t2 & Hne & H1%Hmem & H2%Hmem).
        destruct H1 as [H1|[-> _]]; [|by left].
        destruct H2 as [H2|[-> _]]; [|by left].
        right. by exists t1, t2.
    + subst old. rewrite Hc. split.
      * intros (t1 & t2 & Hne & H1 & H2).
        exists t1, t2. split; [done|]. split; apply Hmem; by left.
      * intros (t1 & t2 & Hne & H1%Hmem & H2%Hmem).
        destruct H1 as [H1|[-> ->]], H2 as [H2|[Hn ->]].
        -- by exists t1, t2.
        -- subst n. by exists t1, t0.
        -- by exists t0, t2.
        -- done.
  - split; [done|]. split; [done|]. intros n. rewrite Hc. split.
    + intros (t1 & t2 & Hne & H1 & H2).
      exists t1, t2. split; [done|]. split; apply Hmem; by left.
    + intros (t1 & t2 & Hne & H1%Hmem & H2%Hmem).
      destruct H1 as [H1|[-> ->]], H2 as [H2|[Hn ->]].
      * by exists t1, t2.
      * subst n. destruct (Hb _ _ H1) as [x Hx]. congruence.
      * destruct (Hb _ _ H2) as [x Hx]. congruence.
      * done.
Qed.

Lemma ledger_inv_ledger (recs : list (str * Item)) : ledger_inv recs (ledger recs).
Proof.
  induction recs as [|r recs IH] using rev_ind; [apply ledger_inv_nil|].
  unfold ledger. rewrite foldl_app. simpl. by apply ledger_inv_step.
Qed.

Lemma lookup_foldr_delete (m : gmap str Item) (l : list str) (k : str) :
  foldr delete m l !! k = if decide (k ∈ l) then None else m !! k.
Proof.
  induction l as [|a l IH]; simpl.
  - destruct (decide (k ∈ [])) as [Hk|]; [by apply elem_of_nil in Hk|done].
  - destruct (decide (a = k)) as [->|Hne].
    + rewrite lookup_delete_eq. destruct (decide (k ∈ k :: l)) as [|Hn]; [done|].
      exfalso. apply Hn. by left.
    + rewrite lookup_delete_ne by done. rewrite IH.
      destruct (decide (k ∈ l)), (decide (k ∈ a :: l)); try done.
      * exfalso. apply n. by right.
      * apply elem_of_cons in e as [->|]; done.
Qed.

Lemma sort_items_sorted (l : list Item) : Sorted str_le (sort_items l).
Proof. apply Sorted_merge_sort, _. Qed.

Lemma sort_items_permutation (l : list Item) : sort_items l ≡ₚ l.
Proof. apply merge_sort_Permutation. Qed.

Lemma sort_items_perm_eq (l1 l2 : list Item) : l1 ≡ₚ l2 -> sort_items l1 = sort_items l2.
Proof.
  intros Hp. apply (Sorted_unique str_le); try apply sort_items_sorted.
  by rewrite !sort_items_permutation.
Qed.

(** ** The row loop of [main] *)

Lemma bind_BOk {A B} (a : A) (k : A -> BuildResult B) : (x ← BOk a; k x) = k a.
Proof. reflexivity. Qed.

Lemma bind_BOk_inv {A B} (r : BuildResult A) (k : A -> BuildResult B) (b : B) :
  (x ← r; k x) = BOk b -> exists a, r = BOk a /\ k a = BOk b.
Proof. destruct r as [a|e]; [by exists a|done]. Qed.

Lemma bind_BErr {A B} (e : BuildError) (k : A -> BuildResult B) : (x ← BErr e; k x) = BErr e.
Proof. reflexivity. Qed.

Lemma ok_or_BOk {A} (o : option A) e a : ok_or o e = BOk a -> o = Some a.
Proof. destruct o; simpl; congruence. Qed.

Section MainProofs.
Context `{SynParse}.

Lemma push_uses_spec (us : list Url) (items items' : list Item)
    (l l' : gmap str Item * gset str) :
  push_uses us items l = BOk (items', l') ->
  items' = items ++ gen_items us /\ l' = foldl record_use l (recordings us).
Proof.
  revert items l. unfold gen_items, recordings, kept_urls.
  induction us as [|u us IH]; intros items l Hp; simpl in *.
  - injection Hp as <- <-. by rewrite app_nil_r.
  - destruct (excluded_module (module u)); simpl in *; [by apply IH|].
    destruct (parse_path _), (is_ident _); simpl in Hp; try done.
    apply IH in Hp as [-> ->]. by rewrite <- app_assoc.
Qed.

Lemma row_block_spec (items : list Item) (inp usg urlstrings desc : str) (row : Stmt) :
  row_block items inp usg urlstrings desc = BOk row ->
  row_items row = Some items /\ reference_column row = Some urlstrings.
Proof.
  unfold row_block. intros Hr.
  apply bind_BOk_inv in Hr as (kind & _ & Hr).
  apply bind_BOk_inv in Hr as (asg & _ & Hr).
  by injection Hr as <-.
Qed.

(** What one row adds to the loop state. *)
Lemma process_row_spec (st st' : State) (c : Combinator) :
  process_row st c = BOk st' ->
  let us := resolve_urls (last_urls st) c in
  exists items0 row,
    parse_file (imports c) = Some items0 /\
    statements st' = statements st ++ [row] /\
    last_urls st' = us /\
    (uses st', uses_conflicts st') =
      foldl record_use (uses st, uses_conflicts st) (recordings us) /\
    reference_column row = Some (join (s "<br>") (map url_string (urls c))) /\
    (forall items, row_items row = Some items -> items = items0 ++ gen_items us) /\
    (is_Some (input c) -> is_Some (row_items row)).
Proof.
  intros Hp. cbv zeta. unfold process_row in Hp. cbv zeta in Hp.
  apply bind_BOk_inv in Hp as (items0 & Hf%ok_or_BOk & Hp).
  apply bind_BOk_inv in Hp as ([items [uses' conflicts']] & Hu & Hp).
  apply push_uses_spec in Hu as [-> Hl].
  apply bind_BOk_inv in Hp as (row & Hrow & Hp).
  injection Hp as <-. simpl.
  exists items0, row. do 3 (split; [done|]). split; [done|].
  destruct (input c) as [inp|], (usage c) as [usg|]; try done.
  - apply row_block_spec in Hrow as [Hi Hc].
    split; [done|]. split; [|by rewrite Hi]. rewrite Hi. congruence.
  - injection Hrow as <-. split; [done|]. split; [done|]. by intros [].
Qed.

Lemma run_rows_statements (st st' : State) (rows : list Combinator) :
  run_rows st rows = BOk st' -> exists suf, statements st' = statements st ++ suf.
Proof.
  revert st. induction rows as [|c rows IH]; intros st Hr; simpl in Hr.
  - injection Hr as <-. exists []. by rewrite app_nil_r.
  - apply bind_BOk_inv in Hr as (st1 & H1 & Hr).
    apply process_row_spec in H1 as (items0 & row & _ & Hs & _).
    destruct (IH _ Hr) as [suf Hsuf]. exists ([row] ++ suf).
    by rewrite Hsuf, Hs, app_assoc.
Qed.

Lemma run_tables_statements (st st' : State) (tables : list (str * list Combinator)) :
  run_tables st tables = BOk st' -> exists suf, statements st' = statements st ++ suf.
Proof.
  revert st. induction tables as [|[pre rows] tables IH]; intros st Hr; simpl in Hr.
  - injection Hr as <-. exists []. by rewrite app_nil_r.
  - apply bind_BOk_inv in Hr as (st1 & H1 & Hr).
    apply run_rows_statements in H1 as [suf1 Hs1].
    destruct (IH _ Hr) as [suf Hsuf]. exists ([WritePreamble pre] ++ suf1 ++ suf).
    rewrite Hsuf, Hs1. simpl. by rewrite <- !app_assoc.
Qed.

Lemma run_tables_app (st st' : State) (ts1 ts2 : list (str * list Combinator)) :
  run_tables st (ts1 ++ ts2) = BOk st' ->
  exists st1, run_tables st ts1 = BOk st1 /\ run_tables st1 ts2 = BOk st'.
Proof.
  revert st. induction ts1 as [|[pre rows] ts1 IH]; intros st Hr; simpl in *.
  - by exists st.
  - apply bind_BOk_inv in Hr as (st1 & H1 & Hr).
    destruct (IH _ Hr) as (st2 & H2 & H3). exists st2. by rewrite H1.
Qed.

End MainProofs.

Lemma run_rows_ledger `{SynParse} (st st' : State) (rows : list Combinator)
    (recs : list (str * Item)) :
  (uses st, uses_conflicts st) = ledger recs -> run_rows st rows = BOk st' ->
  exists recs', (uses st', uses_conflicts st') = ledger recs'.
Proof.
  revert st recs. induction rows as [|c rows IH]; intros st recs Hl Hr; simpl in Hr.
  - injection Hr as <-. by exists recs.
  - apply bind_BOk_inv in Hr as (st1 & H1 & Hr).
    apply process_row_spec in H1 as (items0 & row & _ & _ & _ & Hl1 & _).
    apply (IH st1 (recs ++ recordings (resolve_urls (last_urls st) c))); [|done].
    by rewrite Hl1, Hl; unfold ledger; rewrite foldl_app.
Qed.

Lemma run_tables_ledger `{SynParse} (st st' : State) (tables : list (str * list Combinator))
    (recs : list (str * Item)) :
  (uses st, uses_conflicts st) = ledger recs -> run_tables st tables = BOk st' ->
  exists recs', (uses st', uses_conflicts st') = ledger recs'.
Proof.
  revert st recs. induction tables as [|[pre rows] tables IH]; intros st recs Hl Hr;
    simpl in Hr.
  - injection Hr as <-. by exists recs.
  - apply bind_BOk_inv in Hr as (st1 & H1 & Hr).
    apply run_rows_ledger with (recs := recs) in H1 as [recs1 Hl1]; [|done].
    by apply (IH st1 recs1).
Qed.

Lemma main_global_uses `{SynParse} (tables : list (str * list Combinator)) (rem : str)
    (stmts : list Stmt) (out : list Item) :
  main tables rem = BOk (stmts, out) -> exists recs, out = global_uses recs.
Proof.
  unfold main. intros Hm. apply bind_BOk_inv in Hm as (st & Hr & Hm).
  injection Hm as _ <-.
  apply run_tables_ledger with (recs := []) in Hr as [recs Hl]; [|done].
  exists recs. unfold global_uses. by rewrite <- Hl.
Qed.

(** C5: the finalized global [use] list of any sequence of recordings
    leaves out every name with two different proposed statements, holds the
    one statement of every other recorded name, and is the sorted list of
    these statements, the same whatever order the map enumerates them in;
    [main]'s global list is such a list; and each row's block keeps the
    [use] items generated from its references, whatever the ledger holds. *)
Theorem ledger_finalize_excludes_conflicts :
  (forall recs : list (str * Item),
     let '(uses, uses_conflicts) := ledger recs in
     let kept := foldr delete uses (elements uses_conflicts) in
     (forall n, (exists t1 t2, t1 <> t2 /\ (n, t1) ∈ recs /\ (n, t2) ∈ recs) ->
        kept !! n = None) /\
     (forall n t, (n, t) ∈ recs -> (forall t', (n, t') ∈ recs -> t' = t) ->
        kept !! n = Some t) /\
     (forall n t, kept !! n = Some t -> (n, t) ∈ recs) /\
     finalize uses uses_conflicts ≡ₚ map snd (map_to_list kept) /\
     Sorted str_le (finalize uses uses_conflicts) /\
     (forall l, l ≡ₚ map snd (map_to_list kept) ->
        sort_items l = finalize uses uses_conflicts)) /\
  (forall (SP : SynParse) tables rem stmts out,
     main tables rem = BOk (stmts, out) -> exists recs, out = global_uses recs) /\
  (forall (SP : SynParse) st c st',
     process_row st c = BOk st' ->
     exists items0 row,
       parse_file (imports c) = Some items0 /\
       statements st' = statements st ++ [row] /\
       (forall items, row_items row = Some items ->
          items = items0 ++ gen_items (resolve_urls (last_urls st) c))).
Proof.
  split; [|split].
  - intros recs. pose proof (ledger_inv_ledger recs) as Hinv.
    destruct (ledger recs) as [uses conf]. destruct Hinv as (Ha & Hb & Hc).
    assert (Hk : forall n, foldr delete uses (elements conf) !! n =
                           if decide (n ∈ conf) then None else uses !! n).
    { intros n. rewrite lookup_foldr_delete.
      destruct (decide (n ∈ elements conf)) as [Hn|Hn], (decide (n ∈ conf)) as [Hn'|Hn'];
        try done; exfalso.
      - apply Hn'. by apply elem_of_elements in Hn.
      - apply Hn. by apply elem_of_elements. }
    split; [|split; [|split; [|split; [|split]]]].
    + intros n Hn. rewrite Hk. apply Hc in Hn. by rewrite decide_True.
    + intros n t Hin Huniq. rewrite Hk. rewrite decide_False.
      * destruct (Hb _ _ Hin) as [t0 Ht0]. rewrite Ht0.
        by rewrite (Huniq t0 (Ha _ _ Ht0)).
      * rewrite Hc. intros (t1 & t2 & Hne & H1 & H2).
        apply Hne. by rewrite (Huniq _ H1), (Huniq _ H2).
    + intros n t. rewrite Hk. destruct (decide (n ∈ conf)); [done|]. apply Ha.
    + apply sort_items_permutation.
    + apply sort_items_sorted.
    + intros l Hl. unfold finalize. by apply sort_items_perm_eq.
  - intros SP tables rem stmts out. apply main_global_uses.
  - intros SP st c st' Hp. apply process_row_spec in Hp as (items0 & row & Hf & Hs & _ & _ & _ & Hi & _).
    by exists items0, row.
Qed.

(** ** Malformed rows and excluded modules *)

Lemma process_row_half_err `{SynParse} (st : State) (c : Combinator) :
  (is_Some (usage c) <-> input c = None) -> exists e, process_row st c = BErr e.
Proof.
  intros Hc. unfold process_row. cbv zeta.
  destruct (parse_file (imports c)) as [items0|]; [|by eexists].
  cbn [mbind BuildResult_mbind bbind ok_or].
  destruct (push_uses _ _ _) as [[items [u cf]]|e]; [|by eexists].
  cbn [mbind BuildResult_mbind bbind ok_or].
  destruct (input c) as [i|] eqn:Ei, (usage c) as [g|] eqn:Eu.
  - exfalso. assert (Hs : is_Some (Some g)) by (eexists; reflexivity). apply Hc in Hs. discriminate.
  - by eexists.
  - by eexists.
  - exfalso. destruct (proj2 Hc eq_refl) as [? [=]].
Qed.

Lemma run_rows_half_err `{SynParse} (st : State) (rows : list Combinator) (c : Combinator) :
  c ∈ rows -> (is_Some (usage c) <-> input c = None) ->
  exists e, run_rows st rows = BErr e.
Proof.
  intros Hin Hc. revert st. induction rows as [|c0 rows IH]; intros st.
  - by apply elem_of_nil in Hin.
  - simpl. apply elem_of_cons in Hin as [<-|Hin].
    + destruct (process_row_half_err st c Hc) as [e ->]. by exists e.
    + destruct (process_row st c0) as [st1|e]; [|by exists e].
      apply IH, Hin.
Qed.

Lemma run_tables_half_err `{SynParse} (st : State) (tables : list (str * list Combinator))
    (pre : str) (rows : list Combinator) (c : Combinator) :
  (pre, rows) ∈ tables -> c ∈ rows -> (is_Some (usage c) <-> input c = None) ->
  exists e, run_tables st tables = BErr e.
Proof.
  intros Hin Hc Hhalf. revert st. induction tables as [|[pre0 rows0] tables IH]; intros st.
  - by apply elem_of_nil in Hin.
  - simpl. apply elem_of_cons in Hin as [Heq|Hin].
    + injection Heq as <- <-.
      destruct (run_rows_half_err (push_statement st (WritePreamble pre)) rows c Hc Hhalf)
        as [e ->]. by exists e.
    + destruct (run_rows _ rows0) as [st1|e]; [|by exists e].
      apply IH, Hin.
Qed.

(** C6: a row of any table with a usage and no input, or an input and no
    usage, makes [main] fail: it returns no statements at all. *)
Theorem main_rejects_half_rows `{SynParse} (tables : list (str * list Combinator))
    (remainder pre : str) (rows : list Combinator) (c : Combinator) :
  (pre, rows) ∈ tables -> c ∈ rows -> (is_Some (usage c) <-> input c = None) ->
  exists e, main tables remainder = BErr e.
Proof.
  intros Hin Hc Hhalf. unfold main.
  destruct (run_tables_half_err initial_state tables pre rows c Hin Hc Hhalf) as [e ->].
  by exists e.
Qed.

Lemma main_rejects_half_rows_witness :
  ((s "pre", [row_tag1; row_half]) ∈ [(s "pre", [row_tag1; row_half])] /\
   row_half ∈ [row_tag1; row_half] /\
   (is_Some (usage row_half) <-> input row_half = None)) /\
  exists e, @main syn_accept_all [(s "pre", [row_tag1; row_half])] (s "end") = BErr e.
Proof.
  assert (Hin : (s "pre", [row_tag1; row_half]) ∈ [(s "pre", [row_tag1; row_half])])
    by (left; reflexivity).
  assert (Hc : row_half ∈ [row_tag1; row_half]) by (right; left; reflexivity).
  assert (Hh : is_Some (usage row_half) <-> input row_half = None)
    by (simpl; split; [reflexivity|intros _; eexists; reflexivity]).
  split; [split; [exact Hin|split; [exact Hc|exact Hh]]|].
  exact (main_rejects_half_rows (H := syn_accept_all) _ (s "end") _ _ _ Hin Hc Hh).
Defined.

Lemma kept_urls_spec (us : list Url) :
  kept_urls us `sublist_of` us /\
  (forall u, u ∈ kept_urls us <-> u ∈ us /\ excluded_module (module u) = false).
Proof.
  unfold kept_urls. split.
  - induction us as [|u us IH]; simpl; [done|].
    destruct (excluded_module (module u)); simpl.
    + by apply sublist_cons.
    + by apply sublist_skip.
  - intros u. rewrite !list_elem_of_In, filter_In. by rewrite negb_true_iff.
Qed.

Lemma join_infix (sep : str) (f : Url -> str) (l : list Url) (u : Url) :
  u ∈ l -> is_infix (f u) (join sep (map f l)).
Proof.
  induction l as [|u0 l IH]; intros Hin; [by apply elem_of_nil in Hin|].
  apply elem_of_cons in Hin as [<-|Hin].
  - destruct l as [|u1 l]; simpl.
    + exists [], []. by rewrite app_nil_r.
    + exists [], (sep ++ join sep (map f (u1 :: l))). done.
  - destruct (IH Hin) as (x & y & Hxy). destruct l as [|u1 l]; [by apply elem_of_nil in Hin|].
    exists (f u0 ++ sep ++ x), y. simpl in *. rewrite Hxy. by rewrite <- !app_assoc.
Qed.

Lemma docsurl_in_url_string (u : Url) : is_infix (docsurl u) (url_string u).
Proof.
  exists (module u ++ s "::[" ++ name u ++ s "]("), (s ")").
  unfold url_string. by rewrite <- !app_assoc.
Qed.

(** C9: the [use] items a row adds to its block, and the recordings it makes
    into the ledger, come exactly from the resolved references whose module
    neither ends with [streaming] nor starts with [bits], in order; every
    reference of the row, excluded or not, has its documentation URL in the
    row's reference column. *)
Theorem process_row_excluded_modules_no_use `{SynParse} (st st' : State) (c : Combinator) :
  process_row st c = BOk st' ->
  let us := resolve_urls (last_urls st) c in
  exists items0 row ks col,
    ks `sublist_of` us /\
    (forall u, u ∈ ks <-> u ∈ us /\ excluded_module (module u) = false) /\
    parse_file (imports c) = Some items0 /\
    statements st' = statements st ++ [row] /\
    (forall items, row_items row = Some items ->
       items = items0 ++ map (fun u => use_item (module u) (name u)) ks) /\
    (uses st', uses_conflicts st') =
      foldl record_use (uses st, uses_conflicts st)
        (map (fun u => (name u, use_item (module u) (name u))) ks) /\
    reference_column row = Some col /\
    (forall u, u ∈ urls c -> is_infix (docsurl u) col).
Proof.
  intros Hp us. apply process_row_spec in Hp as (items0 & row & Hf & Hs & _ & Hl & Hc & Hi & _).
  destruct (kept_urls_spec us) as [Hsub Hks].
  exists items0, row, (kept_urls us), (join (s "<br>") (map url_string (urls c))).
  do 4 (split; [done|]). split; [done|]. split; [done|]. split; [done|].
  intros u Hu. destruct (docsurl_in_url_string u) as (x1 & y1 & E1).
  destruct (join_infix (s "<br>") url_string (urls c) u Hu) as (x2 & y2 & E2).
  exists (x2 ++ x1), (y1 ++ y2). rewrite E2, E1. by rewrite <- !app_assoc.
Qed.

Lemma process_row_excluded_modules_no_use_witness :
  @process_row syn_accept_all initial_state row_bits =
    BOk {| uses := ∅; uses_conflicts := ∅; last_urls := [bits_url];
           statements := [StaticRow (url_string bits_url) (s "bits")] |} /\
  exists items0 row ks col,
    ks `sublist_of` [bits_url] /\
    (forall u, u ∈ ks <-> u ∈ [bits_url] /\ excluded_module (module u) = false) /\
    @parse_file syn_accept_all (imports row_bits) = Some items0 /\
    [StaticRow (url_string bits_url) (s "bits")] = [] ++ [row] /\
    (forall items, row_items row = Some items ->
       items = items0 ++ map (fun u => use_item (module u) (name u)) ks) /\
    ((∅ : gmap str Item), (∅ : gset str)) =
      foldl record_use (∅, ∅)
        (map (fun u => (name u, use_item (module u) (name u))) ks) /\
    reference_column row = Some col /\
    (forall u, u ∈ urls row_bits -> is_infix (docsurl u) col).
Proof.
  assert (Hp : @process_row syn_accept_all initial_state row_bits =
    BOk {| uses := ∅; uses_conflicts := ∅; last_urls := [bits_url];
           statements := [StaticRow (url_string bits_url) (s "bits")] |})
    by (vm_compute; reflexivity).
  split; [exact Hp|].
  exact (process_row_excluded_modules_no_use (H := syn_accept_all) _ _ _ Hp).
Defined.

(** ** Rows without references *)

(** C1 (counterexample): in a table whose first row references [tag] and
    whose second row has no references, the second row's reference column
    is empty, not the first row's. *)
Lemma main_second_row_reference_column_empty :
  exists s1 s2 rest out,
    @main syn_accept_all [(s "pre", [row_tag1; row_tag2])] (s "end") =
      BOk (WritePreamble (s "pre") :: s1 :: s2 :: rest, out) /\
    urls row_tag1 <> [] /\ urls row_tag2 = [] /\
    reference_column s1 = Some (url_string tag_url) /\
    reference_column s2 = Some [] /\
    reference_column s1 <> reference_column s2.
Proof.
  rewrite main_two_rows_test. do 4 eexists.
  split; [reflexivity|]. split; [discriminate|]. split; [reflexivity|].
  split; [reflexivity|]. split; [reflexivity|]. vm_compute. discriminate.
Qed.

(** C1: when the first row of a table has references [R] and the second
    row none, the first row's reference column renders [R] and the second
    row's is empty; [R] is what the second row inherits: its block gets the
    same [use] items generated from [R] as the first row's, after the items
    of its own [use] block. *)
Theorem main_carry_forward_imports `{SynParse}
    (ts1 ts2 : list (str * list Combinator)) (pre : str) (r1 r2 : Combinator)
    (rows : list Combinator) (remainder : str) (stmts : list Stmt) (out : list Item) :
  main (ts1 ++ (pre, r1 :: r2 :: rows) :: ts2) remainder = BOk (stmts, out) ->
  urls r1 <> [] -> urls r2 = [] ->
  exists before after s1 s2,
    stmts = before ++ [WritePreamble pre; s1; s2] ++ after /\
    reference_column s1 = Some (join (s "<br>") (map url_string (urls r1))) /\
    reference_column s2 = Some [] /\
    (forall items, row_items s1 = Some items ->
       exists items0, parse_file (imports r1) = Some items0 /\
                      items = items0 ++ gen_items (urls r1)) /\
    (forall items, row_items s2 = Some items ->
       exists items0, parse_file (imports r2) = Some items0 /\
                      items = items0 ++ gen_items (urls r1)).
Proof.
  intros Hm Hu1 Hu2. unfold main in Hm.
  apply bind_BOk_inv in Hm as (st & Hr & Hm). injection Hm as <- _.
  apply run_tables_app in Hr as (st1 & _ & Hr). simpl in Hr.
  apply bind_BOk_inv in Hr as (st2 & Hrows & Hrest). simpl in Hrows.
  apply bind_BOk_inv in Hrows as (a & Ha & Hrows).
  apply bind_BOk_inv in Hrows as (b & Hb & Hrows).
  apply process_row_spec in Ha as (i1 & s1 & Hf1 & Hs1 & Hl1 & _ & Hc1 & Hi1 & _).
  apply process_row_spec in Hb as (i2 & s2 & Hf2 & Hs2 & _ & _ & Hc2 & Hi2 & _).
  apply run_rows_statements in Hrows as [suf1 Hsuf1].
  apply run_tables_statements in Hrest as [suf2 Hsuf2].
  assert (Hres1 : resolve_urls (last_urls (push_statement st1 (WritePreamble pre))) r1 = urls r1).
  { unfold resolve_urls. by destruct (urls r1). }
  assert (Hres2 : resolve_urls (last_urls a) r2 = urls r1).
  { unfold resolve_urls. rewrite Hu2. by rewrite Hl1. }
  rewrite Hres1 in Hi1. rewrite Hres2 in Hi2.
  exists (statements st1), (suf1 ++ suf2 ++ [WriteRemainder remainder]), s1, s2.
  split; [|split; [done|split; [by rewrite Hc2, Hu2|split]]].
  - rewrite Hsuf2, Hsuf1, Hs2, Hs1. simpl. by rewrite <- !app_assoc.
  - intros items Hit. exists i1. split; [done|]. by apply Hi1.
  - intros items Hit. exists i2. split; [done|]. by apply Hi2.
Qed.

Lemma main_carry_forward_imports_witness :
  (@main syn_accept_all ([] ++ (s "pre", [row_tag1; row_tag2]) :: []) (s "end") =
   BOk ([WritePreamble (s "pre");
         RowBlock [use_item (s "bytes::complete") (s "tag")] (s "abc")
           (LetOutput (s "tag(ab)")) (url_string tag_url)
           (s "`tag(ab)`") (s "`abc`") (s "first");
         RowBlock [use_item (s "bytes::complete") (s "tag")] (s "xyz")
           (LetOutput (s "tag(xy)")) []
           (s "`tag(xy)`") (s "`xyz`") (s "second");
         WriteRemainder (s "end")],
        [use_item (s "bytes::complete") (s "tag")]) /\
   urls row_tag1 <> [] /\ urls row_tag2 = []) /\
  exists before after s1 s2,
    [WritePreamble (s "pre");
     RowBlock [use_item (s "bytes::complete") (s "tag")] (s "abc")
       (LetOutput (s "tag(ab)")) (url_string tag_url)
       (s "`tag(ab)`") (s "`abc`") (s "first");
     RowBlock [use_item (s "bytes::complete") (s "tag")] (s "xyz")
       (LetOutput (s "tag(xy)")) []
       (s "`tag(xy)`") (s "`xyz`") (s "second");
     WriteRemainder (s "end")] = before ++ [WritePreamble (s "pre"); s1; s2] ++ after /\
    reference_column s1 = Some (join (s "<br>") (map url_string (urls row_tag1))) /\
    reference_column s2 = Some [] /\
    (forall items, row_items s1 = Some items ->
       exists items0, @parse_file syn_accept_all (imports row_tag1) = Some items0 /\
                      items = items0 ++ gen_items (urls row_tag1)) /\
    (forall items, row_items s2 = Some items ->
       exists items0, @parse_file syn_accept_all (imports row_tag2) = Some items0 /\
                      items = items0 ++ gen_items (urls row_tag1)).
Proof.
  assert (Hm : @main syn_accept_all ([] ++ (s "pre", [row_tag1; row_tag2]) :: []) (s "end") =
   BOk ([WritePreamble (s "pre");
         RowBlock [use_item (s "bytes::complete") (s "tag")] (s "abc")
           (LetOutput (s "tag(ab)")) (url_string tag_url)
           (s "`tag(ab)`") (s "`abc`") (s "first");
         RowBlock [use_item (s "bytes::complete") (s "tag")] (s "xyz")
           (LetOutput (s "tag(xy)")) []
           (s "`tag(xy)`") (s "`xyz`") (s "second");
         WriteRemainder (s "end")],
        [use_item (s "bytes::complete") (s "tag")])) by (vm_compute; reflexivity).
  assert (H1 : urls row_tag1 <> []) by discriminate.
  assert (H2 : urls row_tag2 = []) by reflexivity.
  split; [split; [exact Hm|split; [exact H1|exact H2]]|].
  exact (main_carry_forward_imports (H := syn_accept_all) [] [] (s "pre") row_tag1 row_tag2 []
           (s "end") _ _ Hm H1 H2).
Defined.

(** ** Table rows *)

Example parse_combinator_test :
  parse_combinator (s "| bytes::complete::tag | `tag(ab)` | `abc` |  | first |" ++ [nl] ++ s "next") =
  BOk (Done (s "next")
    {| urls := [{| module := s "bytes::complete"; name := s "tag";
                   docsurl := s "https://docs.rs/nom/latest/nom/bytes/complete/fn.tag.html" |}];
       imports := []; usage := Some (s "tag(ab)"); input := Some (s "abc");
       description := s "first" |}).
Proof. vm_compute. reflexivity. Qed.

Example parse_imports_short_test :
  parse_imports_short (s "use a::b; use c;  f(x)") = Done (s "f(x)") (s "use a::b; use c;  ").
Proof. vm_compute. reflexivity. Qed.

Example trim_end_test :
  trim_end (s "ab " ++ [ascii_of_N 0xE3; ascii_of_N 0x80; ascii_of_N 0x80] ++ [nl]) = s "ab".
Proof. vm_compute. reflexivity. Qed.

(** ** Substring search and splitting *)

Lemma str_prefixb_app (p r : str) : str_prefixb p (p ++ r) = true.
Proof. induction p as [|a p IH]; simpl; [done|]. by rewrite Ascii.eqb_refl. Qed.

Lemma str_prefixb_iff (p z : str) : str_prefixb p z = true <-> exists q, z = p ++ q.
Proof.
  split.
  - intros H. exists (drop (length p) z). by apply str_prefixb_spec.
  - intros [q ->]. apply str_prefixb_app.
Qed.

Lemma find_substring_app (pat x z : str) :
  (forall k, k < length x -> str_prefixb pat (drop k (x ++ z)) = false) ->
  str_prefixb pat z = true -> find_substring pat (x ++ z) = Some (length x).
Proof.
  revert z. induction x as [|a x IH]; intros z Hk Hz; simpl.
  - destruct z; simpl in *; by rewrite Hz.
  - pose proof (Hk 0 ltac:(simpl; lia)) as H0. simpl in H0. rewrite H0.
    rewrite IH; [done| |done].
    intros k Hlt. apply (Hk (S k)). simpl. lia.
Qed.

Lemma find_substring_some (pat input : str) (i : nat) :
  find_substring pat input = Some i ->
  i <= length input /\ str_prefixb pat (drop i input) = true /\
  forall k, k < i -> str_prefixb pat (drop k input) = false.
Proof.
  revert i. induction input as [|a input IH]; intros i Hf; simpl in Hf.
  - destruct (str_prefixb pat []) eqn:E; [|done]. injection Hf as <-.
    split; [simpl; lia|]. split; [done|]. intros; lia.
  - destruct (str_prefixb pat (a :: input)) eqn:E.
    + injection Hf as <-. split; [simpl; lia|]. split; [done|]. intros; lia.
    + destruct (find_substring pat input) as [j|] eqn:Ej; [|done].
      injection Hf as <-. destruct (IH j eq_refl) as (H1 & H2 & H3).
      split; [simpl; lia|]. split; [done|].
      intros [|k] Hk; [done|]. simpl. apply H3. lia.
Qed.

Lemma find_substring_none (pat input : str) :
  find_substring pat input = None -> ~ is_infix pat input.
Proof.
  intros Hf (x & y & ->). revert Hf. induction x as [|a x IH]; simpl.
  - intros Hf. assert (Hs := str_prefixb_app pat y).
    destruct (pat ++ y) as [|c w]; simpl in Hf; rewrite Hs in Hf; discriminate.
  - destruct (str_prefixb pat _); [done|].
    destruct (find_substring pat (x ++ pat ++ y)); [done|]. intros _. by apply IH.
Qed.

(** The bytes before the first occurrence of [pat] do not contain it. *)
Lemma find_substring_take (pat input : str) (i : nat) :
  pat <> [] -> find_substring pat input = Some i -> ~ is_infix pat (take i input).
Proof.
  intros Hp Hf (x & y & Hxy). apply find_substring_some in Hf as (Hle & _ & Hk).
  assert (Hlen : length x < i).
  { assert (length (take i input) = i) as Ht by (rewrite length_take; lia).
    rewrite Hxy, !length_app in Ht. destruct pat; [done|simpl in Ht; lia]. }
  specialize (Hk (length x) Hlen).
  rewrite <- (take_drop i input), Hxy, <- app_assoc, drop_app_length in Hk.
  by rewrite <- app_assoc, str_prefixb_app in Hk.
Qed.

Lemma take_while_app (f : ascii -> bool) (p r : str) :
  Forall (fun c => f c = true) p ->
  match r with [] => True | c :: _ => f c = false end ->
  take_while f (p ++ r) = (p, r).
Proof.
  intros Hp Hr. induction Hp as [|a p Ha Hp IH]; simpl.
  - destruct r as [|c r]; simpl; [done|]. by rewrite Hr.
  - rewrite Ha, IH. done.
Qed.

Lemma join_cons (sep' a : str) (l : list str) :
  l <> [] -> join sep' (a :: l) = a ++ sep' ++ join sep' l.
Proof. by destruct l. Qed.

Lemma join_app_single (sep' : str) (l : list str) (b : str) :
  l <> [] -> join sep' (l ++ [b]) = join sep' l ++ sep' ++ b.
Proof.
  induction l as [|a l IH]; [done|]. intros _. destruct l as [|a' l].
  - done.
  - change ((a :: a' :: l) ++ [b]) with (a :: ((a' :: l) ++ [b])).
    rewrite (join_cons sep' a ((a' :: l) ++ [b])); [|simpl; discriminate].
    rewrite IH; [|discriminate].
    rewrite (join_cons sep' a (a' :: l)); [|discriminate].
    by rewrite <- !app_assoc.
Qed.

(** [str::split]: the pieces, joined by the pattern, give the text back,
    and no piece contains the pattern. *)
Lemma split_fuel_spec (fuel : nat) (pat t : str) :
  pat <> [] -> length t < fuel ->
  split_fuel fuel pat t <> [] /\
  join pat (split_fuel fuel pat t) = t /\
  Forall (fun p => ~ is_infix pat p) (split_fuel fuel pat t).
Proof.
  intros Hp. revert t. induction fuel as [|fuel IH]; intros t Hlen; [lia|]. simpl.
  destruct (find_substring pat t) as [i|] eqn:Ef.
  - pose proof (find_substring_take pat t i Hp Ef) as Htake.
    apply find_substring_some in Ef as (Hle & Hpre & _).
    apply str_prefixb_spec in Hpre.
    assert (Hl : length (drop (i + length pat) t) < fuel).
    { assert (Hd : length pat <= length (drop i t)) by (rewrite Hpre, length_app; lia).
      rewrite length_drop in Hd |- *. destruct pat; [done|]. simpl in *. lia. }
    destruct (IH _ Hl) as (Hne & Hj & Hf).
    split; [done|]. split.
    + rewrite join_cons by done. rewrite Hj.
      rewrite <- drop_drop. rewrite <- Hpre. apply take_drop.
    + by constructor.
  - split; [done|]. split; [done|]. constructor; [|constructor].
    by apply find_substring_none.
Qed.

Lemma split_spec (pat t : str) :
  pat <> [] ->
  split pat t <> [] /\ join pat (split pat t) = t /\
  Forall (fun p => ~ is_infix pat p) (split pat t).
Proof. intros Hp. apply split_fuel_spec; [done|lia]. Qed.

(** ** Code spans written by [markdown_format_code] *)

Lemma markdown_format_code_shape (t : str) :
  t <> [] ->
  exists n mid,
    markdown_format_code t = repeat backtick (S n) ++ mid ++ repeat backtick (S n) /\
    ~ is_infix (repeat backtick (S n)) mid /\
    mid <> [] /\ ~ text_starts backtick mid /\ ~ text_ends backtick mid /\
    strip_paired_spaces mid = t.
Proof.
  intros Ht. destruct (longest_backtick_run_spec t) as [_ Hno].
  exists (longest_backtick_run t).
  unfold markdown_format_code, repeat_char. rewrite Nat.add_1_r.
  destruct ((starts_with backtick t || ends_with backtick t)
            || (starts_with space t && ends_with space t)) eqn:Hc.
  - exists ([space] ++ t ++ [space]). split; [by rewrite <- !app_assoc|].
    split; [intros H; by apply Hno, infix_padded|].
    split; [done|]. split; [intros [r Hr]; discriminate|]. split.
    + intros [r Hr]. rewrite app_assoc in Hr. apply app_inj_tail in Hr as [_ ?]. discriminate.
    + destruct (strip_paired_spaces_spec ([space] ++ t ++ [space])) as [H1 _].
      assert (Hs : [space] ++ t ++ [space] =
                   [space] ++ strip_paired_spaces ([space] ++ t ++ [space]) ++ [space]).
      { apply H1. split; [by eexists|]. split.
        - exists ([space] ++ t). by rewrite <- app_assoc.
        - rewrite !length_app. simpl. lia. }
      apply app_inv_head in Hs. rewrite !(app_assoc _ _ [space]) in Hs.
      apply app_inj_tail in Hs as [Hs _]. by symmetry.
  - exists t. simpl.
    split; [by rewrite ?app_assoc|]. split; [done|]. split; [done|].
    apply orb_false_iff in Hc as [Hc1 Hc2].
    apply orb_false_iff in Hc1 as [Hs He].
    split; [intros Hst; apply starts_with_spec in Hst; congruence|].
    split; [intros Hen; apply ends_with_spec in Hen; congruence|].
    apply (proj2 (strip_paired_spaces_spec t)).
    intros (Hst & Hen & _). apply starts_with_spec in Hst. apply ends_with_spec in Hen.
    rewrite Hst, Hen in Hc2. discriminate.
Qed.

Lemma is_a_backtick_run (D X : str) :
  D <> [] -> Forall (eq backtick) D ->
  match X with [] => True | c :: _ => c <> backtick end ->
  is_a [backtick] (D ++ X) = Done X D.
Proof.
  intros HD Hall HX. unfold is_a. rewrite take_while_app.
  - by destruct D.
  - eapply Forall_impl; [exact Hall|]. intros c <-. reflexivity.
  - destruct X as [|c X]; [done|]. cbv beta iota delta [in_set existsb].
    rewrite orb_false_r. destruct (Ascii.eqb backtick c) eqn:E; [|reflexivity].
    apply Ascii.eqb_eq in E. congruence.
Qed.

Lemma parse_code_span_framed (n : nat) (mid rest : str) :
  ~ is_infix (repeat backtick (S n)) mid ->
  mid <> [] -> ~ text_starts backtick mid -> ~ text_ends backtick mid ->
  parse_code_span (repeat backtick (S n) ++ mid ++ repeat backtick (S n) ++ rest) =
    Done rest (strip_paired_spaces mid).
Proof.
  intros Hno Hne Hst Hen. set (D := repeat backtick (S n)).
  unfold parse_code_span. rewrite is_a_backtick_run.
  2:{ done. }
  2:{ apply Forall_forall. intros c Hc. apply list_elem_of_In, repeat_spec in Hc. by subst c. }
  2:{ destruct mid as [|c m]; [done|]. simpl. intros ->. apply Hst. by exists m. }
  cbn [pbind]. unfold take_until. rewrite find_substring_app.
  - rewrite drop_app_length, take_app_length. cbn [pbind].
    unfold tag. rewrite (str_prefixb_app D rest), drop_app_length. reflexivity.
  - intros k Hk. rewrite drop_app_le by lia.
    destruct (str_prefixb D (drop k mid ++ D ++ rest)) eqn:E; [|done]. exfalso.
    apply str_prefixb_iff in E as [q Hq].
    assert (Hw : drop k mid <> []) by (intros Hd; apply (f_equal length) in Hd;
                                        rewrite length_drop in Hd; simpl in Hd; lia).
    apply app_eq_app in Hq as [l [[H1 H2]|[H1 H2]]].
    + apply Hno. exists (take k mid), l. change (repeat backtick (S n)) with D.
      by rewrite <- H1, take_drop.
    + apply Hen. destruct (repeat_prefix_ends backtick (S n) (drop k mid) l) as [r Hr];
        [by rewrite <- H1|done|].
      exists (take k mid ++ r). by rewrite <- app_assoc, <- Hr, take_drop.
  - apply str_prefixb_app.
Qed.

(** [parse_code_span] reads back what [markdown_format_code] writes: the
    code span of a non-empty text, followed by anything, gives the text and
    stops right after the closing delimiter. *)
Theorem parse_code_span_markdown_format_code (t rest : str) :
  t <> [] -> parse_code_span (markdown_format_code t ++ rest) = Done rest t.
Proof.
  intros Ht. destruct (markdown_format_code_shape t Ht)
    as (n & mid & Heq & Hno & Hne & Hst & Hen & Hstrip).
  rewrite Heq, <- !app_assoc, parse_code_span_framed by done. by rewrite Hstrip.
Qed.

Lemma parse_code_span_markdown_format_code_witness :
  s "a`b" <> [] /\
  parse_code_span (markdown_format_code (s "a`b") ++ s " | rest") = Done (s " | rest") (s "a`b").
Proof.
  assert (H : s "a`b" <> []) by discriminate.
  split; [exact H|]. exact (parse_code_span_markdown_format_code (s "a`b") (s " | rest") H).
Defined.

(** ** More on [main] *)

Section MainMore.
Context `{SynParse}.

Lemma run_rows_app (st st' : State) (l1 l2 : list Combinator) :
  run_rows st (l1 ++ l2) = BOk st' ->
  exists st1, run_rows st l1 = BOk st1 /\ run_rows st1 l2 = BOk st'.
Proof.
  revert st. induction l1 as [|c l1 IH]; intros st Hr; simpl in *.
  - by exists st.
  - apply bind_BOk_inv in Hr as (st1 & H1 & Hr).
    destruct (IH _ Hr) as (st2 & H2 & H3). exists st2. by rewrite H1.
Qed.

(** The row statement of [c] renders [c]'s own references. *)
Definition row_column_ok (c : Combinator) (x : Stmt) : Prop :=
  reference_column x = Some (join (s "<br>") (map url_string (urls c))).

Lemma run_rows_layout (st st' : State) (rows : list Combinator) :
  run_rows st rows = BOk st' ->
  exists ss, statements st' = statements st ++ ss /\ Forall2 row_column_ok rows ss.
Proof.
  revert st. induction rows as [|c rows IH]; intros st Hr; simpl in Hr.
  - injection Hr as <-. exists []. by rewrite app_nil_r.
  - apply bind_BOk_inv in Hr as (st1 & H1 & Hr).
    apply process_row_spec in H1 as (items0 & row & _ & Hs & _ & _ & Hc & _).
    destruct (IH _ Hr) as (ss & Hss & Hf). exists (row :: ss).
    split; [by rewrite Hss, Hs, <- app_assoc|]. by constructor.
Qed.

Lemma run_tables_layout (st st' : State) (tables : list (str * list Combinator)) :
  run_tables st tables = BOk st' ->
  exists rowstmts,
    statements st' = statements st ++
      concat (zip_with (fun t ss => WritePreamble t.1 :: ss) tables rowstmts) /\
    Forall2 (fun t ss => Forall2 row_column_ok t.2 ss) tables rowstmts.
Proof.
  revert st. induction tables as [|[pre rows] tables IH]; intros st Hr; simpl in Hr.
  - injection Hr as <-. exists []. by rewrite app_nil_r.
  - apply bind_BOk_inv in Hr as (st1 & H1 & Hr).
    apply run_rows_layout in H1 as (ss & Hss & Hf).
    destruct (IH _ Hr) as (rs & Hrs & Hfr). exists (ss :: rs). split.
    + rewrite Hrs, Hss. simpl. by rewrite <- !app_assoc.
    + by constructor.
Qed.

End MainMore.

(** [main]'s statements: for each table its preamble, then one statement
    per row in row order, each rendering the row's own references; then the
    text after the last table. *)
Theorem main_statement_layout `{SynParse} (tables : list (str * list Combinator))
    (remainder : str) (stmts : list Stmt) (out : list Item) :
  main tables remainder = BOk (stmts, out) ->
  exists rowstmts,
    stmts = concat (zip_with (fun t ss => WritePreamble t.1 :: ss) tables rowstmts)
            ++ [WriteRemainder remainder] /\
    Forall2 (fun t ss =>
      Forall2 (fun c x => reference_column x =
                 Some (join (s "<br>") (map url_string (urls c)))) t.2 ss)
      tables rowstmts.
Proof.
  unfold main. intros Hm. apply bind_BOk_inv in Hm as (st & Hr & Hm).
  injection Hm as <- _. apply run_tables_layout in Hr as (rs & Hs & Hf).
  exists rs. split; [by rewrite Hs|]. exact Hf.
Qed.

(** The references a row without references inherits are those of the
    last row before it, also when that row ends the previous table. *)
Theorem main_carry_forward_across_tables `{SynParse}
    (ts1 ts2 : list (str * list Combinator)) (pre1 pre2 : str)
    (rows1 rows2 : list Combinator) (r1 r2 : Combinator)
    (remainder : str) (stmts : list Stmt) (out : list Item) :
  main (ts1 ++ (pre1, rows1 ++ [r1]) :: (pre2, r2 :: rows2) :: ts2) remainder =
    BOk (stmts, out) ->
  urls r1 <> [] -> urls r2 = [] ->
  exists before after s2,
    stmts = before ++ [WritePreamble pre2; s2] ++ after /\
    reference_column s2 = Some [] /\
    (forall items, row_items s2 = Some items ->
       exists items0, parse_file (imports r2) = Some items0 /\
                      items = items0 ++ gen_items (urls r1)).
Proof.
  intros Hm Hu1 Hu2. unfold main in Hm.
  apply bind_BOk_inv in Hm as (st & Hr & Hm). injection Hm as <- _.
  apply run_tables_app in Hr as (st1 & _ & Hr). simpl in Hr.
  apply bind_BOk_inv in Hr as (a & Ha & Hr).
  apply run_rows_app in Ha as (b & _ & Hb). simpl in Hb.
  apply bind_BOk_inv in Hb as (a' & Hb & Ha'). injection Ha' as ->.
  apply process_row_spec in Hb as (_ & _ & _ & _ & Hl1 & _).
  simpl in Hr. apply bind_BOk_inv in Hr as (c & Hc & Hrest).
  simpl in Hc. apply bind_BOk_inv in Hc as (d & Hd & Hrows).
  apply process_row_spec in Hd as (i2 & s2 & Hf2 & Hs2 & _ & _ & Hc2 & Hi2 & _).
  apply run_rows_statements in Hrows as [suf1 Hsuf1].
  apply run_tables_statements in Hrest as [suf2 Hsuf2].
  assert (Hres : resolve_urls (last_urls (push_statement a (WritePreamble pre2))) r2 = urls r1).
  { unfold resolve_urls. rewrite Hu2. simpl. rewrite Hl1.
    unfold resolve_urls. by destruct (urls r1). }
  rewrite Hres in Hi2.
  exists (statements a), (suf1 ++ suf2 ++ [WriteRemainder remainder]), s2.
  split; [|split; [by rewrite Hc2, Hu2|]].
  - rewrite Hsuf2, Hsuf1, Hs2. simpl. by rewrite <- !app_assoc.
  - intros items Hit. exists i2. split; [done|]. by apply Hi2.
Qed.

(** The first row of the first table, when it has no references, inherits
    none: its block holds only its own [use] items and its reference
    column is empty. *)
Theorem main_first_row_without_references `{SynParse}
    (pre : str) (r : Combinator) (rows : list Combinator)
    (ts : list (str * list Combinator)) (remainder : str)
    (stmts : list Stmt) (out : list Item) :
  main ((pre, r :: rows) :: ts) remainder = BOk (stmts, out) ->
  urls r = [] ->
  exists s1 after,
    stmts = [WritePreamble pre; s1] ++ after /\
    reference_column s1 = Some [] /\
    (forall items, row_items s1 = Some items -> parse_file (imports r) = Some items).
Proof.
  intros Hm Hu. unfold main in Hm.
  apply bind_BOk_inv in Hm as (st & Hr & Hm). injection Hm as <- _.
  simpl in Hr. apply bind_BOk_inv in Hr as (a & Ha & Hrest).
  simpl in Ha. apply bind_BOk_inv in Ha as (b & Hb & Hrows).
  apply process_row_spec in Hb as (i1 & s1 & Hf1 & Hs1 & _ & _ & Hc1 & Hi1 & _).
  apply run_rows_statements in Hrows as [suf1 Hsuf1].
  apply run_tables_statements in Hrest as [suf2 Hsuf2].
  assert (Hres : resolve_urls (last_urls (push_statement initial_state (WritePreamble pre))) r = []).
  { unfold resolve_urls. by rewrite Hu. }
  rewrite Hres in Hi1.
  exists s1, (suf1 ++ suf2 ++ [WriteRemainder remainder]).
  split; [|split; [by rewrite Hc1, Hu|]].
  - rewrite Hsuf2, Hsuf1, Hs1. simpl. by rewrite <- !app_assoc.
  - intros items Hit. rewrite (Hi1 items Hit). unfold gen_items. simpl.
    by rewrite app_nil_r.
Qed.

Lemma main_statement_layout_witness :
  match @main syn_accept_all [(s "pre", [row_tag1; row_tag2])] (s "end") with
  | BOk (stmts, out) =>
      @main syn_accept_all [(s "pre", [row_tag1; row_tag2])] (s "end") = BOk (stmts, out) /\
      exists rowstmts,
        stmts = concat (zip_with (fun t ss => WritePreamble t.1 :: ss)
                  [(s "pre", [row_tag1; row_tag2])] rowstmts) ++ [WriteRemainder (s "end")] /\
        Forall2 (fun t ss =>
          Forall2 (fun c x => reference_column x =
                     Some (join (s "<br>") (map url_string (urls c)))) t.2 ss)
          [(s "pre", [row_tag1; row_tag2])] rowstmts
  | BErr _ => False
  end.
Proof.
  destruct (@main syn_accept_all [(s "pre", [row_tag1; row_tag2])] (s "end"))
    as [[stmts out]|e] eqn:E.
  - split; [reflexivity|]. exact (main_statement_layout _ _ _ _ E).
  - vm_compute in E. discriminate.
Defined.

Lemma main_carry_forward_across_tables_witness :
  match @main syn_accept_all
          ([] ++ (s "p1", [] ++ [row_tag1]) :: (s "p2", row_tag2 :: []) :: []) (s "end") with
  | BOk (stmts, out) =>
      urls row_tag1 <> [] /\ urls row_tag2 = [] /\
      exists before after s2,
        stmts = before ++ [WritePreamble (s "p2"); s2] ++ after /\
        reference_column s2 = Some [] /\
        (forall items, row_items s2 = Some items ->
           exists items0, @parse_file syn_accept_all (imports row_tag2) = Some items0 /\
                          items = items0 ++ gen_items (urls row_tag1))
  | BErr _ => False
  end.
Proof.
  destruct (@main syn_accept_all
          ([] ++ (s "p1", [] ++ [row_tag1]) :: (s "p2", row_tag2 :: []) :: []) (s "end"))
    as [[stmts out]|e] eqn:E.
  - assert (H1 : urls row_tag1 <> []) by discriminate.
    assert (H2 : urls row_tag2 = []) by reflexivity.
    split; [exact H1|]. split; [exact H2|].
    exact (main_carry_forward_across_tables _ _ _ _ _ _ _ _ _ _ _ E H1 H2).
  - vm_compute in E. discriminate.
Defined.

Lemma main_first_row_without_references_witness :
  match @main syn_accept_all [(s "pre", [row_tag2; row_tag1])] (s "end") with
  | BOk (stmts, out) =>
      urls row_tag2 = [] /\
      exists s1 after,
        stmts = [WritePreamble (s "pre"); s1] ++ after /\
        reference_column s1 = Some [] /\
        (forall items, row_items s1 = Some items ->
           @parse_file syn_accept_all (imports row_tag2) = Some items)
  | BErr _ => False
  end.
Proof.
  destruct (@main syn_accept_all [(s "pre", [row_tag2; row_tag1])] (s "end"))
    as [[stmts out]|e] eqn:E.
  - assert (H2 : urls row_tag2 = []) by reflexivity.
    split; [exact H2|].
    exact (main_first_row_without_references _ _ _ _ _ _ _ E H2).
  - vm_compute in E. discriminate.
Defined.

(** ** [sep] and [parse_imports_short] *)

Lemma take_while_eq_spec (f : ascii -> bool) (t p r : str) :
  take_while f t = (p, r) ->
  t = p ++ r /\ Forall (fun c => f c = true) p /\
  match r with [] => True | c :: _ => f c = false end.
Proof.
  revert p r. induction t as [|c t IH]; intros p r Ht; simpl in Ht.
  - by injection Ht as <- <-.
  - destruct (f c) eqn:Ec.
    + destruct (take_while f t) as [p' r'] eqn:E. injection Ht as <- <-.
      destruct (IH _ _ eq_refl) as (-> & Hp & Hr). split; [done|]. split; [|done].
      by constructor.
    + injection Ht as <- <-. simpl. by repeat split.
Qed.

Lemma space0_spec (input : str) :
  exists b r, space0 input = Done r b /\ input = b ++ r /\
    Forall (fun c => is_blank c = true) b /\ starts_blank r = false.
Proof.
  unfold space0. destruct (take_while _ input) as [p r] eqn:E.
  apply take_while_eq_spec in E as (-> & Hp & Hr). exists p, r.
  split; [done|]. split; [done|]. split; [exact Hp|]. by destruct r.
Qed.

Lemma space0_app (b r : str) :
  Forall (fun c => is_blank c = true) b -> starts_blank r = false ->
  space0 (b ++ r) = Done r b.
Proof.
  intros Hb Hr. unfold space0. rewrite take_while_app; [done|exact Hb|].
  by destruct r.
Qed.

Lemma use_decl_spec (input r : str) (x : str * str * str * str) :
  use_decl input = Done r x ->
  exists d, use_decl_text d /\ input = d ++ r.
Proof.
  intros H. unfold use_decl, tag in H.
  destruct (str_prefixb (s "use ") input) eqn:E1; [|discriminate].
  cbn [pbind] in H. apply str_prefixb_iff in E1 as [q1 ->].
  rewrite drop_app_length in H. unfold take_until in H.
  destruct (find_substring (s ";") q1) as [i|] eqn:E2; [|discriminate].
  cbn [pbind] in H.
  destruct (str_prefixb (s ";") (drop i q1)) eqn:E3; [|discriminate].
  cbn [pbind] in H. apply str_prefixb_iff in E3 as [q2 Hq2].
  rewrite Hq2, drop_app_length in H.
  destruct (space0_spec q2) as (b & r' & Hs & -> & Hb & _).
  rewrite Hs in H. cbn [pbind] in H. injection H as <- _.
  exists (s "use " ++ take i q1 ++ s ";" ++ b). split.
  - exists (take i q1), b. split; [done|]. split; [|exact Hb].
    by apply find_substring_take.
  - rewrite <- (take_drop i q1) at 1. rewrite Hq2. by rewrite <- !app_assoc.
Qed.

Lemma many0_loop_use_decl (fuel : nat) (input : str) acc :
  length input < fuel ->
  exists decls rest l,
    many0_loop fuel use_decl input acc = Done rest l /\
    input = concat decls ++ rest /\ Forall use_decl_text decls /\
    exists i e, use_decl rest = PError i e.
Proof.
  revert input acc. induction fuel as [|fuel IH]; intros input acc Hlen; [lia|].
  simpl. destruct (use_decl input) as [r x|i e] eqn:E.
  - destruct (use_decl_spec _ _ _ E) as (d & Hd & Hin).
    assert (Hlt : length r < length input).
    { destruct Hd as (body & blanks & -> & _). rewrite Hin, !length_app. simpl. lia. }
    replace (length r =? length input) with false by (symmetry; apply Nat.eqb_neq; lia).
    destruct (IH r (acc ++ [x]) ltac:(lia)) as (decls & rest & l & Hm & Hr & Hf & He).
    exists (d :: decls), rest, l. split; [done|]. split.
    + rewrite Hin, Hr. simpl. by rewrite app_assoc.
    + split; [by constructor|done].
  - exists [], input, acc. split; [done|]. split; [done|]. split; [done|]. eauto.
Qed.

(** [sep] succeeds exactly on blanks, a bar and blanks; it consumes all the
    blanks after the bar and returns nothing. *)
Theorem sep_spec (input r : str) :
  sep input = Done r [] <->
  exists b1 b2, input = b1 ++ s "|" ++ b2 ++ r /\
    Forall (fun c => is_blank c = true) b1 /\
    Forall (fun c => is_blank c = true) b2 /\ starts_blank r = false.
Proof.
  split.
  - intros H. unfold sep in H.
    destruct (space0_spec input) as (b1 & r1 & Hs1 & -> & Hb1 & _).
    rewrite Hs1 in H. cbn [pbind] in H. unfold tag in H.
    destruct (str_prefixb (s "|") r1) eqn:E; [|discriminate].
    cbn [pbind] in H. apply str_prefixb_iff in E as [q ->].
    rewrite drop_app_length in H.
    destruct (space0_spec q) as (b2 & r2 & Hs2 & -> & Hb2 & Hh2).
    rewrite Hs2 in H. cbn [pbind] in H. injection H as <-.
    exists b1, b2. done.
  - intros (b1 & b2 & -> & Hb1 & Hb2 & Hh). unfold sep.
    rewrite space0_app; [|exact Hb1|reflexivity]. cbn [pbind]. unfold tag.
    rewrite str_prefixb_app. cbn [pbind]. rewrite drop_app_length.
    rewrite space0_app; [done|exact Hb2|exact Hh].
Qed.

Lemma parse_imports_short_decls (input : str) :
  exists decls usage,
    parse_imports_short input = Done usage (concat decls) /\
    input = concat decls ++ usage /\
    Forall use_decl_text decls /\
    exists i e, use_decl usage = PError i e.
Proof.
  unfold parse_imports_short, recognize, many0.
  destruct (many0_loop_use_decl (S (length input)) input [] ltac:(lia))
    as (decls & rest & l & Hm & Hin & Hf & He).
  rewrite Hm. exists decls, rest. split; [|done]. f_equal.
  rewrite Hin, length_app, Nat.add_sub. apply take_app_length.
Qed.

(** [parse_imports_short] never fails: it splits the usage into the leading
    [use ...;] declarations (each one [use ], a text without [;], [;] and
    blanks) and the rest, on which no further declaration starts. *)
Theorem parse_imports_short_spec (input : str) :
  exists decls usage,
    parse_imports_short input = Done usage (concat decls) /\
    input = concat decls ++ usage /\
    Forall use_decl_text decls /\
    exists i e, use_decl usage = PError i e.
Proof. apply parse_imports_short_decls. Qed.

(** ** [parse_url] and [parse_urls] *)

Lemma split_fuel_nil (fuel : nat) (pat : str) :
  pat <> [] -> split_fuel fuel pat [] = [[]].
Proof. intros Hp. destruct fuel, pat as [|c pat]; done. Qed.

(** A reference that [parse_url] accepts is its module path, [::] and its
    name, with no [::] inside the name or a path segment; the link is the
    docs.rs base, one directory per segment, [fn.] or [enum.] by the case of
    the name's first character, the name and [.html]. *)
Theorem parse_url_spec `{CharClass} (url : str) (u : Url) :
  parse_url url = Some u ->
  exists parts,
    url = join (s "::") (parts ++ [name u]) /\
    module u = join (s "::") parts /\
    name u <> [] /\ ~ is_infix (s "::") (name u) /\
    Forall (fun p => ~ is_infix (s "::") p) parts /\
    docsurl u = docs_base ++ concat (map (fun p => p ++ [ "/"%char ]) parts) ++
      (if first_char_is_lowercase (name u) then s "fn." else s "enum.") ++
      name u ++ s ".html".
Proof.
  intros Hu. destruct (split_spec (s "::") url ltac:(discriminate)) as (Hne & Hj & Hf).
  destruct (exists_last Hne) as (l & x & E).
  unfold parse_url in Hu. cbv zeta in Hu. rewrite E, last_snoc, removelast_last in Hu.
  destruct x as [|c x]; [discriminate|]. injection Hu as <-. simpl.
  rewrite E, Forall_app, Forall_singleton in Hf. destruct Hf as [Hf Hx].
  exists l. split; [by rewrite <- E|]. split; [done|]. split; [done|].
  split; [done|]. split; [done|]. by rewrite <- !app_assoc.
Qed.

(** [parse_url] panics (here [None]) only on an empty reference or one that
    ends in [::]. *)
Theorem parse_url_none `{CharClass} (url : str) :
  parse_url url = None -> url = [] \/ exists x, url = x ++ s "::".
Proof.
  intros Hu. destruct (split_spec (s "::") url ltac:(discriminate)) as (Hne & Hj & _).
  destruct (exists_last Hne) as (l & x & E).
  unfold parse_url in Hu. cbv zeta in Hu. rewrite E, last_snoc, removelast_last in Hu.
  destruct x as [|c x]; [|discriminate].
  rewrite E in Hj. destruct l as [|a l].
  - left. by rewrite <- Hj.
  - right. exists (join (s "::") (a :: l)). rewrite <- Hj.
    rewrite join_app_single; [|discriminate]. by rewrite app_nil_r.
Qed.

Lemma split_fuel_ends_sep (fuel : nat) (x : str) :
  length (x ++ s "::") < fuel ->
  (x = [] \/ last x <> Some ":"%char) ->
  last (split_fuel fuel (s "::") (x ++ s "::")) = Some [].
Proof.
  revert x. induction fuel as [|fuel IH]; intros x Hlen Hx; [lia|].
  cbn [split_fuel]. change (length (s "::")) with 2.
  destruct (find_substring (s "::") (x ++ s "::")) as [i|] eqn:E.
  2:{ exfalso. apply (find_substring_none _ _ E). exists x, []. by rewrite app_nil_r. }
  apply find_substring_some in E as (Hle & Hpre & _).
  apply str_prefixb_iff in Hpre as [q Hq].
  assert (Hlq : length (drop i (x ++ s "::")) = length (s "::" ++ q)) by (by rewrite Hq).
  rewrite length_drop, !length_app in Hlq. simpl in Hlq.
  destruct (decide (i = length x)) as [->|Hne].
  - rewrite drop_ge; [|rewrite length_app; simpl; lia].
    rewrite split_fuel_nil; [reflexivity|discriminate].
  - assert (Hi : i + 2 <= length x).
    { destruct (decide (i + 1 = length x)) as [Hi1|Hi1]; [|lia].
      exfalso. destruct Hx as [->|Hx]; [simpl in Hi1; lia|].
      assert (Hxn : x <> []) by (intros ->; simpl in Hi1; lia).
      destruct (exists_last Hxn) as (x0 & c & ->).
      rewrite last_snoc in Hx. rewrite length_app in Hi1. simpl in Hi1.
      rewrite <- app_assoc, drop_app_le in Hq by lia.
      replace (drop i x0) with (@nil ascii) in Hq
        by (symmetry; apply drop_ge; lia).
      simpl in Hq. injection Hq as Hc _. by apply Hx; rewrite Hc. }
    rewrite (drop_app_le x) by lia.
    assert (Hlast : last (split_fuel fuel (s "::") (drop (i + 2) x ++ s "::")) = Some []).
    { apply IH.
      - rewrite length_app, length_drop. rewrite length_app in Hlen. simpl in *. lia.
      - destruct (drop (i + 2) x) as [|d w] eqn:Ed; [by left|right].
        destruct Hx as [->|Hx]; [by rewrite drop_nil in Ed|].
        rewrite <- (take_drop (i + 2) x), last_app, Ed in Hx.
        destruct (last (d :: w)); [exact Hx|done]. }
    rewrite last_cons, Hlast. done.
Qed.

(** A reference [x ++ "::"] where [x] does not end with a colon makes
    [parse_url] panic (here [None]): its last piece is empty. *)
Theorem parse_url_trailing_sep `{CharClass} (x : str) :
  (x = [] \/ last x <> Some ":"%char) -> parse_url (x ++ s "::") = None.
Proof.
  intros Hx. unfold parse_url. cbv zeta. unfold split.
  rewrite split_fuel_ends_sep; [done|lia|exact Hx].
Qed.

Lemma parse_url_spec_witness :
  match parse_url (s "bytes::complete::tag") with
  | Some u =>
      parse_url (s "bytes::complete::tag") = Some u /\
      exists parts,
        s "bytes::complete::tag" = join (s "::") (parts ++ [name u]) /\
        module u = join (s "::") parts /\
        name u <> [] /\ ~ is_infix (s "::") (name u) /\
        Forall (fun p => ~ is_infix (s "::") p) parts /\
        docsurl u = docs_base ++ concat (map (fun p => p ++ [ "/"%char ]) parts) ++
          (if first_char_is_lowercase (name u) then s "fn." else s "enum.") ++
          name u ++ s ".html"
  | None => False
  end.
Proof.
  destruct (parse_url (s "bytes::complete::tag")) as [u|] eqn:E.
  - split; [reflexivity|]. exact (parse_url_spec _ _ E).
  - vm_compute in E. discriminate.
Defined.

Lemma parse_url_none_witness :
  parse_url (s "bytes::") = None /\
  (s "bytes::" = [] \/ exists x, s "bytes::" = x ++ s "::").
Proof.
  assert (H : parse_url (s "bytes::") = None) by (vm_compute; reflexivity).
  split; [exact H|]. exact (parse_url_none _ H).
Defined.

Lemma parse_url_trailing_sep_witness :
  (s "bytes" = [] \/ last (s "bytes") <> Some ":"%char) /\
  parse_url (s "bytes" ++ s "::") = None.
Proof.
  assert (Hx : s "bytes" = [] \/ last (s "bytes") <> Some ":"%char).
  { right. vm_compute. discriminate. }
  split; [exact Hx|]. exact (parse_url_trailing_sep _ Hx).
Defined.

(** ** The row parser [parse_combinator] *)

Lemma tag_done (p i r x : str) : tag p i = Done r x -> x = p /\ i = p ++ r.
Proof.
  unfold tag. destruct (str_prefixb p i) eqn:E; [|discriminate].
  intros [= <- <-]. apply str_prefixb_iff in E as [q ->].
  by rewrite drop_app_length.
Qed.

Lemma take_until_done (p i r x : str) :
  p <> [] -> take_until p i = Done r x -> i = x ++ r /\ ~ is_infix p x.
Proof.
  intros Hp. unfold take_until. destruct (find_substring p i) as [k|] eqn:E; [|discriminate].
  intros [= <- <-]. split; [by rewrite take_drop|]. by apply find_substring_take.
Qed.

Lemma take_until_suffix (i r x : str) :
  take_until (s "|") i = Done r x -> r `suffix_of` i /\ ~ is_infix (s "|") x.
Proof.
  intros H. apply take_until_done in H as [-> Hn]; [|discriminate].
  split; [by exists x|exact Hn].
Qed.

Lemma space0_done (i r x : str) : space0 i = Done r x -> r `suffix_of` i.
Proof.
  destruct (space0_spec i) as (b & r' & Hs & -> & _). rewrite Hs.
  intros [= <- _]. by exists b.
Qed.

Lemma sep_done (i r x : str) : sep i = Done r x -> r `suffix_of` i.
Proof.
  unfold sep. destruct (space0_spec i) as (b1 & r1 & Hs1 & -> & _).
  rewrite Hs1. cbn [pbind]. destruct (tag (s "|") r1) as [r2 y|] eqn:E; [|discriminate].
  cbn [pbind]. apply tag_done in E as [_ ->].
  destruct (space0_spec r2) as (b2 & r3 & Hs2 & -> & _). rewrite Hs2. cbn [pbind].
  intros [= <- _]. exists (b1 ++ s "|" ++ b2). by rewrite <- !app_assoc.
Qed.

Lemma parse_code_span_done (i r x : str) : parse_code_span i = Done r x -> r `suffix_of` i.
Proof.
  unfold parse_code_span. destruct (is_a [backtick] i) as [r1 d|] eqn:E1; [|discriminate].
  cbn [pbind]. apply is_a_backtick_spec in E1 as (-> & Hd & _).
  destruct (take_until d r1) as [r2 c|] eqn:E2; [|discriminate]. cbn [pbind].
  apply take_until_done in E2 as [-> _]; [|done].
  destruct (tag d r2) as [r3 y|] eqn:E3; [|discriminate]. cbn [pbind].
  apply tag_done in E3 as [_ ->]. intros [= <- _].
  exists (d ++ c ++ d). by rewrite <- !app_assoc.
Qed.

Lemma opt_code_span_done (i r : str) (o : option str) :
  opt parse_code_span i = Done r o -> r `suffix_of` i.
Proof.
  unfold opt. destruct (parse_code_span i) as [r' x|] eqn:E.
  - intros [= <- _]. by apply parse_code_span_done in E.
  - by intros [= <- _].
Qed.

Lemma line_ending_done (i r x : str) :
  line_ending i = Done r x -> i = x ++ r /\ (x = [nl] \/ x = [cr; nl]).
Proof.
  unfold line_ending. destruct (str_prefixb [nl] i) eqn:E1.
  - intros [= <- <-]. apply str_prefixb_iff in E1 as [q ->]. split; [done|by left].
  - destruct (str_prefixb [cr; nl] i) eqn:E2; [|discriminate].
    intros [= <- <-]. apply str_prefixb_iff in E2 as [q ->]. split; [done|by right].
Qed.

Lemma ws_suffix_len_le (t : str) : ws_suffix_len t <= length t.
Proof.
  rewrite <- length_rev. unfold ws_suffix_len.
  destruct (rev t) as [|b r]; simpl; [lia|].
  repeat case_match; simpl; lia.
Qed.

Lemma trim_end_fuel_spec (fuel : nat) (t : str) :
  length t <= fuel ->
  (exists w, t = trim_end_fuel fuel t ++ w) /\ ws_suffix_len (trim_end_fuel fuel t) = 0.
Proof.
  revert t. induction fuel as [|fuel IH]; intros t Hl; cbn [trim_end_fuel].
  - destruct t; [|simpl in Hl; lia]. split; [by exists []|done].
  - destruct (ws_suffix_len t) as [|k] eqn:E.
    + split; [exists []; by rewrite app_nil_r|done].
    + pose proof (ws_suffix_len_le t) as Hk.
      destruct (IH (take (length t - S k) t)) as [[w Hw] H0]; [rewrite length_take; lia|].
      split; [|done]. exists (w ++ drop (length t - S k) t).
      by rewrite app_assoc, <- Hw, take_drop.
Qed.

(** [str::trim_end] keeps a prefix that ends in no white space. *)
Lemma trim_end_spec (t : str) :
  (exists w, t = trim_end t ++ w) /\ ws_suffix_len (trim_end t) = 0.
Proof. by apply trim_end_fuel_spec. Qed.

Lemma not_infix_prefix (p t w : str) : ~ is_infix p (t ++ w) -> ~ is_infix p t.
Proof.
  intros Hn (x & y & ->). apply Hn. exists x, (y ++ w). by rewrite <- !app_assoc.
Qed.

Lemma trim_end_no_infix (p t : str) : ~ is_infix p t -> ~ is_infix p (trim_end t).
Proof.
  intros Hn. destruct (trim_end_spec t) as [[w Hw] _].
  apply (not_infix_prefix _ _ w). by rewrite <- Hw.
Qed.

Ltac pstep H :=
  cbv zeta in H;
  lazymatch type of H with
  | pbind ?r _ = _ =>
      let E := fresh "E" in
      destruct r as [? ?|? ?] eqn:E; cbn [pbind] in H; [|discriminate H]
  end.

Lemma parse_row_cells_spec (i rest urls_text d : str) (usage ex : option str) :
  parse_row_cells i = Done rest (urls_text, usage, ex, d) ->
  (exists pre le, i = pre ++ le ++ rest /\ (le = [nl] \/ le = [cr; nl])) /\
  ~ is_infix (s "|") urls_text /\ ws_suffix_len urls_text = 0 /\
  ~ is_infix (s "|") d /\ ws_suffix_len d = 0.
Proof.
  intros H. unfold parse_row_cells in H. repeat pstep H.
  injection H as <- <- _ _ <-.
  repeat match goal with
  | E : sep _ = Done _ _ |- _ => apply sep_done in E
  | E : space0 _ = Done _ _ |- _ => apply space0_done in E
  | E : opt parse_code_span _ = Done _ _ |- _ => apply opt_code_span_done in E
  | E : take_until (s "|") _ = Done _ _ |- _ =>
      apply take_until_suffix in E as [?E ?E]
  | E : line_ending _ = Done _ _ |- _ => apply line_ending_done in E as [-> ?E]
  end.
  split; [|split; [by apply trim_end_no_infix|]; split; [apply trim_end_spec|];
           split; [by apply trim_end_no_infix|apply trim_end_spec]].
  match goal with
  | Hle : ?le = [nl] \/ ?le = [cr; nl] |- exists pre le', ?i = pre ++ le' ++ ?r /\ _ =>
      assert (Hs : (le ++ r) `suffix_of` i)
        by (repeat (first [assumption | etrans; [eassumption|]]));
      destruct Hs as [pre Hs]; exists pre, le; split; [exact Hs|exact Hle]
  end.
Qed.

(** A row that [parse_combinator] reads ends with a line ending; its
    description holds no bar and ends in no white space. *)
Theorem parse_combinator_row_text `{CharClass} (inp rest : str) (c : Combinator) :
  parse_combinator inp = BOk (Done rest c) ->
  (exists pre le, inp = pre ++ le ++ rest /\ (le = [nl] \/ le = [cr; nl])) /\
  ~ is_infix (s "|") (description c) /\ ws_suffix_len (description c) = 0.
Proof.
  intros Hpc. unfold parse_combinator in Hpc.
  destruct (parse_row_cells inp) as [r [[[ut u0] ex] d]|i e] eqn:E; [|discriminate].
  apply parse_row_cells_spec in E as (Hl & _ & _ & Hd & Hw).
  destruct (parse_urls ut); [|discriminate].
  destruct u0 as [code|].
  - destruct (parse_imports_short code); [|discriminate]. by injection Hpc as <- <-.
  - by injection Hpc as <- <-.
Qed.

(** The usage cell of a row is split into its leading [use] declarations,
    which become the row's imports, and the rest, which becomes its usage;
    a row without a usage has no imports. *)
Theorem parse_combinator_imports `{CharClass} (inp rest : str) (c : Combinator) :
  parse_combinator inp = BOk (Done rest c) ->
  exists urls_text usage0,
    parse_row_cells inp = Done rest (urls_text, usage0, input c, description c) /\
    parse_urls urls_text = Some (urls c) /\
    match usage0, usage c with
    | None, None => imports c = []
    | Some code, Some u =>
        exists decls, code = concat decls ++ u /\ imports c = concat decls /\
          Forall use_decl_text decls /\ exists i e, use_decl u = PError i e
    | _, _ => False
    end.
Proof.
  intros Hpc. unfold parse_combinator in Hpc.
  destruct (parse_row_cells inp) as [r [[[ut u0] ex] d]|i e] eqn:E; [|discriminate].
  destruct (parse_urls ut) as [us|] eqn:Eu; [|discriminate].
  destruct u0 as [code|].
  - destruct (parse_imports_short_decls code) as (decls & u & Hp & Hc & Hf & He).
    rewrite Hp in Hpc. injection Hpc as <- <-. simpl.
    exists ut, (Some code). split; [done|]. split; [done|]. by exists decls.
  - injection Hpc as <- <-. by exists ut, None.
Qed.

(** [parse_combinator] rejects a row (without a panic) only where the cell
    parser rejects it: reading the imports never fails. *)
Theorem parse_combinator_error `{CharClass} (inp i : str) (e : ErrorKind) :
  parse_combinator inp = BOk (PError i e) -> parse_row_cells inp = PError i e.
Proof.
  intros Hpc. unfold parse_combinator in Hpc.
  destruct (parse_row_cells inp) as [r [[[ut u0] ex] d]|i' e'] eqn:E.
  - destruct (parse_urls ut); [|discriminate]. destruct u0 as [code|]; [|discriminate].
    destruct (parse_imports_short_decls code) as (decls & u & Hp & _).
    rewrite Hp in Hpc. discriminate.
  - by injection Hpc as -> ->.
Qed.

Lemma parse_combinator_row_text_witness :
  match parse_combinator row_with_imports_text with
  | BOk (Done rest c) =>
      parse_combinator row_with_imports_text = BOk (Done rest c) /\
      (exists pre le, row_with_imports_text = pre ++ le ++ rest /\ (le = [nl] \/ le = [cr; nl])) /\
      ~ is_infix (s "|") (description c) /\ ws_suffix_len (description c) = 0
  | _ => False
  end.
Proof.
  destruct (parse_combinator row_with_imports_text) as [[rest c|i e]|err] eqn:E.
  - split; [reflexivity|]. exact (parse_combinator_row_text _ _ _ E).
  - vm_compute in E. discriminate.
  - vm_compute in E. discriminate.
Defined.

Lemma parse_combinator_imports_witness :
  match parse_combinator row_with_imports_text with
  | BOk (Done rest c) =>
      parse_combinator row_with_imports_text = BOk (Done rest c) /\
      exists urls_text usage0,
        parse_row_cells row_with_imports_text =
          Done rest (urls_text, usage0, input c, description c) /\
        parse_urls urls_text = Some (urls c) /\
        match usage0, usage c with
        | None, None => imports c = []
        | Some code, Some u =>
            exists decls, code = concat decls ++ u /\ imports c = concat decls /\
              Forall use_decl_text decls /\ exists i e, use_decl u = PError i e
        | _, _ => False
        end
  | _ => False
  end.
Proof.
  destruct (parse_combinator row_with_imports_text) as [[rest c|i e]|err] eqn:E.
  - split; [reflexivity|]. exact (parse_combinator_imports _ _ _ E).
  - vm_compute in E. discriminate.
  - vm_compute in E. discriminate.
Defined.

Lemma parse_combinator_error_witness :
  match parse_combinator (s "| bytes::complete::tag") with
  | BOk (PError i e) =>
      parse_combinator (s "| bytes::complete::tag") = BOk (PError i e) /\
      parse_row_cells (s "| bytes::complete::tag") = PError i e
  | _ => False
  end.
Proof.
  destruct (parse_combinator (s "| bytes::complete::tag")) as [[rest c|i e]|err] eqn:E.
  - vm_compute in E. discriminate.
  - split; [reflexivity|]. exact (parse_combinator_error _ _ _ E).
  - vm_compute in E. discriminate.
Defined.

(** ** The example files of [do_code_blocks] *)

Lemma example_file_name_inj (i j : nat) :
  s "examples/example" ++ s (pretty i) ++ s ".rs" =
  s "examples/example" ++ s (pretty j) ++ s ".rs" -> i = j.
Proof.
  intros Hij. apply app_inv_head, app_inv_tail in Hij.
  apply (f_equal string_of_list_ascii) in Hij. unfold s in Hij.
  rewrite !string_of_list_ascii_of_string in Hij. by apply (inj pretty).
Qed.

Lemma example_files_elem_of (idx : nat) (cs : list Component) (f : str * str) :
  f ∈ example_files idx cs <->
  exists i language code,
    cs !! i = Some (CodeBlock language code) /\
    (language = s "rust" \/ language = s "rs") /\
    f = (s "examples/example" ++ s (pretty (idx + i)) ++ s ".rs", code ++ test_suffix).
Proof.
  revert idx. induction cs as [|c cs IH]; intros idx; simpl.
  - split; [by intros ?%elem_of_nil|]. by intros (i & ? & ? & ? & _).
  - assert (Hshift : (exists i language code,
        cs !! i = Some (CodeBlock language code) /\
        (language = s "rust" \/ language = s "rs") /\
        f = (s "examples/example" ++ s (pretty (S idx + i)) ++ s ".rs", code ++ test_suffix)) <->
      (exists i language code,
        (c :: cs) !! S i = Some (CodeBlock language code) /\
        (language = s "rust" \/ language = s "rs") /\
        f = (s "examples/example" ++ s (pretty (idx + S i)) ++ s ".rs", code ++ test_suffix))).
    { by setoid_rewrite Nat.add_succ_r. }
    assert (Hsplit : (exists i language code,
        (c :: cs) !! i = Some (CodeBlock language code) /\
        (language = s "rust" \/ language = s "rs") /\
        f = (s "examples/example" ++ s (pretty (idx + i)) ++ s ".rs", code ++ test_suffix)) <->
      (exists language code, c = CodeBlock language code /\
        (language = s "rust" \/ language = s "rs") /\
        f = (s "examples/example" ++ s (pretty idx) ++ s ".rs", code ++ test_suffix)) \/
      (exists i language code,
        (c :: cs) !! S i = Some (CodeBlock language code) /\
        (language = s "rust" \/ language = s "rs") /\
        f = (s "examples/example" ++ s (pretty (idx + S i)) ++ s ".rs", code ++ test_suffix))).
    { split.
      - intros ([|i] & l & k & Hl & Hr & Hf).
        + left. exists l, k. simpl in Hl. injection Hl as <-. rewrite Nat.add_0_r in Hf. done.
        + right. by exists i, l, k.
      - intros [(l & k & -> & Hr & Hf)|(i & l & k & Hl & Hr & Hf)].
        + exists 0, l, k. rewrite Nat.add_0_r. done.
        + by exists (S i), l, k. }
    rewrite Hsplit, <- Hshift, <- IH.
    destruct c as [text|language code].
    + split; [by right|]. intros [(l & k & [=] & _)|H]; done.
    + case_bool_decide as Hign.
      * split; [by right|]. intros [(l & k & [= <- <-] & Hr & _)|H]; [|done].
        subst language. destruct Hr as [Hr|Hr]; discriminate.
      * case_bool_decide as Hlang.
        -- split; [by right|]. intros [(l & k & [= <- <-] & Hr & _)|H]; [|done].
           destruct Hlang; destruct Hr as [Hr|Hr]; tauto.
        -- rewrite elem_of_cons. split.
           ++ intros [->|H]; [|by right]. left. exists language, code.
              split; [done|]. split; [|done].
              destruct (decide (language = s "rust")); [by left|].
              destruct (decide (language = s "rs")); [by right|]. tauto.
           ++ intros [(l & k & [= <- <-] & _ & ->)|H]; [by left|by right].
Qed.

(** The files [do_code_blocks] writes are the code blocks tagged [rust] or
    [rs] (not the ones tagged [ignore]), each at the path
    [examples/example<i>.rs] of its position [i] among the components, with
    the test module appended. *)
Theorem example_files_spec (cs : list Component) (f : str * str) :
  f ∈ example_files 0 cs <->
  exists i language code,
    cs !! i = Some (CodeBlock language code) /\
    (language = s "rust" \/ language = s "rs") /\
    f = (s "examples/example" ++ s (pretty i) ++ s ".rs", code ++ test_suffix).
Proof. apply example_files_elem_of. Qed.

Lemma example_files_names_ge (idx : nat) (cs : list Component) (p : str) :
  p ∈ map fst (example_files idx cs) ->
  exists j, idx <= j /\ p = s "examples/example" ++ s (pretty j) ++ s ".rs".
Proof.
  intros Hp. apply list_elem_of_In, in_map_iff in Hp as ([p' c] & <- & Hf).
  apply list_elem_of_In in Hf.
  apply example_files_elem_of in Hf as (i & l & k & _ & _ & Hf).
  injection Hf as -> _. exists (idx + i). split; [lia|done].
Qed.

(** [do_code_blocks] never writes two example files at the same path. *)
Theorem example_files_paths_distinct (cs : list Component) :
  NoDup (map fst (example_files 0 cs)).
Proof.
  generalize 0. induction cs as [|c cs IH]; intros idx; simpl; [constructor|].
  destruct c as [text|language code]; [apply IH|].
  case_bool_decide; [apply IH|]. case_bool_decide; [apply IH|].
  simpl. constructor; [|apply IH].
  intros (j & Hj & Hn)%example_files_names_ge.
  apply example_file_name_inj in Hn. lia.
Qed.

(** ** Templates without code blocks or tables *)

Lemma find_substring_no_infix (pat t : str) :
  ~ is_infix pat t -> find_substring pat t = None.
Proof.
  intros Hn. destruct (find_substring pat t) as [i|] eqn:E; [|done].
  apply find_substring_some in E as (_ & Hp & _). apply str_prefixb_iff in Hp as [q Hq].
  exfalso. apply Hn. exists (take i t), q. by rewrite <- Hq, take_drop.
Qed.

Lemma str_prefixb_no_infix (pat t : str) :
  ~ is_infix pat t -> str_prefixb pat t = false.
Proof.
  intros Hn. destruct (str_prefixb pat t) eqn:E; [|done].
  apply str_prefixb_iff in E as [q ->]. exfalso. apply Hn. by exists [], q.
Qed.

(** A template without a code fence is one text component: [do_code_blocks]
    writes no example file and returns the template unchanged; an empty
    template makes it panic. *)
Theorem do_code_blocks_no_fence (t : str) :
  ~ is_infix fence t ->
  do_code_blocks t =
    if bool_decide (t = []) then BErr (Panic "called `Result::unwrap()` on an `Err` value")
    else BOk ([], t).
Proof.
  intros Hn. destruct t as [|c t'].
  - reflexivity.
  - rewrite bool_decide_eq_false_2 by done. unfold do_code_blocks, many1.
    assert (Hp : alt parse_code_block parse_outside_code_blocks (c :: t') = Done [] (Text (c :: t'))).
    { unfold alt, parse_code_block, tag. rewrite str_prefixb_no_infix by done.
      cbn [pbind]. unfold parse_outside_code_blocks, alt, take_until.
      rewrite find_substring_no_infix by done. reflexivity. }
    rewrite Hp. simpl. by rewrite app_nil_r.
Qed.

(** [build] panics when the text after the code-block pass holds no table
    header separator. *)
Theorem build_requires_table_header `{SynParse} `{CharClass}
    (template : str) (files : list (str * str)) (text : str) :
  do_code_blocks template = BOk (files, text) ->
  ~ is_infix TABLE_HEADER_SEP text ->
  build template = BErr (Panic "called `Result::unwrap()` on an `Err` value").
Proof.
  intros Hd Hn. unfold build. rewrite Hd. cbn [mbind BuildResult_mbind bbind].
  unfold many1_b, parse_preamble_and_combinators, recognize, table_header, take_until.
  rewrite find_substring_no_infix by done. reflexivity.
Qed.

Lemma do_code_blocks_no_fence_witness :
  ~ is_infix fence (s "Some text.") /\
  do_code_blocks (s "Some text.") =
    if bool_decide (s "Some text." = []) then
      BErr (Panic "called `Result::unwrap()` on an `Err` value")
    else BOk ([], s "Some text.").
Proof.
  assert (Hn : ~ is_infix fence (s "Some text.")).
  { apply find_substring_none. vm_compute. reflexivity. }
  split; [exact Hn|]. exact (do_code_blocks_no_fence _ Hn).
Defined.

Lemma build_requires_table_header_witness :
  do_code_blocks (s "Some text.") = BOk ([], s "Some text.") /\
  ~ is_infix TABLE_HEADER_SEP (s "Some text.") /\
  @build syn_accept_all ascii_char_class (s "Some text.") =
    BErr (Panic "called `Result::unwrap()` on an `Err` value").
Proof.
  assert (Hd : do_code_blocks (s "Some text.") = BOk ([], s "Some text.")).
  { vm_compute. reflexivity. }
  assert (Hn : ~ is_infix TABLE_HEADER_SEP (s "Some text.")).
  { apply find_substring_none. vm_compute. reflexivity. }
  split; [exact Hd|]. split; [exact Hn|].
  exact (build_requires_table_header _ _ _ Hd Hn).
Defined.

(** ** [format_remainder] (main.rs) *)

Lemma replace_fuel_char (fuel : nat) (p : ascii) (to t : str) :
  length t <= fuel ->
  replace_fuel fuel [p] to t = concat (map (fun c => if Ascii.eqb p c then to else [c]) t).
Proof.
  revert fuel. induction t as [|c t IH]; intros fuel Hl.
  - by destruct fuel.
  - destruct fuel as [|fuel]; [simpl in Hl; lia|]. simpl. rewrite andb_true_r.
    destruct (Ascii.eqb p c); simpl; rewrite IH by (simpl in Hl; lia); reflexivity.
Qed.

Lemma replace_char (p : ascii) (to t : str) :
  replace [p] to t = concat (map (fun c => if Ascii.eqb p c then to else [c]) t).
Proof. by apply replace_fuel_char. Qed.

Lemma replace_fuel_elem (fuel : nat) (pat to t : str) (c : ascii) :
  c ∈ replace_fuel fuel pat to t -> c ∈ t \/ c ∈ to.
Proof.
  revert t. induction fuel as [|fuel IH]; intros t Hc; [by left|].
  destruct t as [|d t]; [by left|]. cbn [replace_fuel] in Hc.
  destruct (str_prefixb pat (d :: t)).
  - apply elem_of_app in Hc as [Hc|Hc]; [by right|].
    apply IH in Hc as [Hc|Hc]; [left|by right].
    rewrite <- (take_drop (length pat) (d :: t)). apply elem_of_app. by right.
  - apply elem_of_cons in Hc as [->|Hc]; [left; apply elem_of_cons; by left|].
    apply IH in Hc as [Hc|Hc]; [left; apply elem_of_cons; by right|by right].
Qed.

Lemma replace_elem (pat to t : str) (c : ascii) :
  c ∈ replace pat to t -> c ∈ t \/ c ∈ to.
Proof. apply replace_fuel_elem. Qed.

Lemma concat_map_char_elem (p : ascii) (to t : str) (c : ascii) :
  c ∈ concat (map (fun x => if Ascii.eqb p x then to else [x]) t) ->
  c ∈ to \/ (c ∈ t /\ c <> p).
Proof.
  induction t as [|x t IH]; simpl; [by intros ?%elem_of_nil|].
  intros Hc. apply elem_of_app in Hc as [Hc|Hc].
  - destruct (Ascii.eqb p x) eqn:E; [by left|].
    apply list_elem_of_singleton in Hc as ->. right. split; [by left|].
    intros ->. by rewrite Ascii.eqb_refl in E.
  - destruct (IH Hc) as [H1|[H1 H2]]; [by left|]. right. split; [by right|done].
Qed.

Lemma comma_spaced_insert (t : str) :
  (forall c, c ∈ t -> c <> " "%char /\ c <> nl) ->
  comma_spaced (concat (map (fun c => if Ascii.eqb ","%char c then s ", " else [c]) t)).
Proof.
  induction t as [|c t IH]; intros Ht; cbn [map concat]; [constructor|].
  assert (IH' : comma_spaced (concat (map (fun c => if Ascii.eqb ","%char c then s ", " else [c]) t))).
  { apply IH. intros d Hd. apply Ht. by right. }
  destruct (Ht c ltac:(by left)) as [Hsp Hnl].
  destruct (Ascii.eqb ","%char c) eqn:E.
  - by apply comma_spaced_comma.
  - apply comma_spaced_char; [|done|done|done]. intros ->. discriminate E.
Qed.

Lemma comma_spaced_amp (t : str) :
  comma_spaced t ->
  comma_spaced (concat (map (fun c => if Ascii.eqb "["%char c then s "&[" else [c]) t)).
Proof.
  induction 1 as [|t Ht IH|c t Hc Hsp Hnl Ht IH]; cbn [map concat].
  - constructor.
  - by apply comma_spaced_comma.
  - destruct (Ascii.eqb "["%char c) eqn:E.
    + apply comma_spaced_char; [discriminate|discriminate|discriminate|].
      apply comma_spaced_char; [discriminate|discriminate|discriminate|done].
    + by apply comma_spaced_char.
Qed.

Lemma format_remainder_spaced (remainder_debug : str) :
  comma_spaced (format_remainder remainder_debug).
Proof.
  unfold format_remainder.
  change (s "[") with ["["%char]. rewrite replace_char. apply comma_spaced_amp.
  change (s ",") with [","%char]. rewrite replace_char. apply comma_spaced_insert.
  intros c Hc. apply replace_elem in Hc as [Hc|Hc].
  - change (s " ") with [" "%char] in Hc. rewrite replace_char in Hc.
    apply concat_map_char_elem in Hc as [Hc|[Hc Hsp]]; [by apply elem_of_nil in Hc|].
    split; [exact Hsp|]. rewrite replace_char in Hc.
    apply concat_map_char_elem in Hc as [Hc|[_ Hnl]]; [by apply elem_of_nil in Hc|exact Hnl].
  - change (s "]") with ["]"%char] in Hc. apply list_elem_of_singleton in Hc as ->.
    split; discriminate.
Qed.

(** ** Tables: [parse_preamble_and_combinators] *)

Lemma parse_combinator_suffix `{CharClass} (inp rest : str) (c : Combinator) :
  parse_combinator inp = BOk (Done rest c) -> rest `suffix_of` inp.
Proof.
  intros Hpc. unfold parse_combinator in Hpc.
  destruct (parse_row_cells inp) as [r [[[ut u0] ex] d]|i e] eqn:E; [|discriminate].
  apply parse_row_cells_spec in E as ((pre & le & -> & _) & _).
  assert (Hr : rest = r).
  { destruct (parse_urls ut); [|discriminate]. destruct u0 as [code|].
    - destruct (parse_imports_short code); [|discriminate]. by injection Hpc as <- _.
    - by injection Hpc as <- _. }
  subst. exists (pre ++ le). by rewrite app_assoc.
Qed.

Lemma many_loop_b_combinators `{CharClass} (fuel : nat) (i r : str) (acc l : list Combinator) :
  many_loop_b fuel parse_combinator i acc = BOk (Done r l) ->
  r `suffix_of` i /\ exists l', l = acc ++ l'.
Proof.
  revert i acc. induction fuel as [|fuel IH]; intros i acc Hm; cbn [many_loop_b] in Hm.
  - injection Hm as <- <-. split; [done|]. exists []. by rewrite app_nil_r.
  - destruct (parse_combinator i) as [[i1 o|i' e]|err] eqn:E;
      cbn [mbind BuildResult_mbind bbind] in Hm.
    + destruct (length i1 =? length i); [discriminate|].
      apply parse_combinator_suffix in E.
      destruct (IH _ _ Hm) as [Hs [l' ->]]. split; [by etrans|].
      exists (o :: l'). by rewrite <- app_assoc.
    + injection Hm as <- <-. split; [done|]. exists []. by rewrite app_nil_r.
    + discriminate.
Qed.

(** A table that [parse_preamble_and_combinators] reads has a preamble made
    of the text up to the first table header separator, the separator and
    a line ending, followed by at least one row. *)
Theorem parse_preamble_and_combinators_spec `{CharClass}
    (inp rest preamble : str) (rows : list Combinator) :
  parse_preamble_and_combinators inp = BOk (Done rest (preamble, rows)) ->
  rows <> [] /\
  exists text le mid,
    preamble = text ++ TABLE_HEADER_SEP ++ le /\
    ~ is_infix TABLE_HEADER_SEP text /\ (le = [nl] \/ le = [cr; nl]) /\
    inp = preamble ++ mid ++ rest.
Proof.
  intros Hp. unfold parse_preamble_and_combinators, recognize in Hp.
  destruct (table_header inp) as [r1 [[a b] c]|i e] eqn:E1; [|discriminate].
  unfold table_header in E1.
  destruct (take_until TABLE_HEADER_SEP inp) as [r0 a'|] eqn:Ea; [|discriminate].
  cbn [pbind] in E1. apply take_until_done in Ea as [-> Hna]; [|discriminate].
  destruct (tag TABLE_HEADER_SEP r0) as [r0' b'|] eqn:Eb; [|discriminate].
  cbn [pbind] in E1. apply tag_done in Eb as [_ ->].
  destruct (line_ending r0') as [r1' c'|] eqn:Ec; [|discriminate].
  cbn [pbind] in E1. apply line_ending_done in Ec as [-> Hle].
  injection E1 as <- <- _ _.
  replace (take (length (a' ++ TABLE_HEADER_SEP ++ c' ++ r1') - length r1')
             (a' ++ TABLE_HEADER_SEP ++ c' ++ r1'))
    with (a' ++ TABLE_HEADER_SEP ++ c') in Hp.
  2:{ rewrite !app_assoc, (length_app _ r1'), Nat.add_sub. by rewrite take_app_length. }
  unfold many1_b in Hp.
  destruct (parse_combinator r1') as [[r2 o|i e]|err] eqn:E2;
    cbn [mbind BuildResult_mbind bbind] in Hp; [|discriminate|discriminate].
  destruct (many_loop_b (S (length r2)) parse_combinator r2 [o]) as [[r3 l|i e]|err] eqn:E3;
    [|discriminate|discriminate].
  injection Hp as <- <- <-.
  apply parse_combinator_suffix in E2 as [k2 ->].
  apply many_loop_b_combinators in E3 as [[k3 ->] [l' ->]].
  split; [done|]. exists a', c', (k2 ++ k3). split; [done|]. split; [done|].
  split; [done|]. by rewrite <- !app_assoc.
Qed.

Lemma parse_preamble_and_combinators_spec_witness :
  match parse_preamble_and_combinators
          (s "Intro" ++ [nl] ++ TABLE_HEADER_SEP ++ [nl] ++ row_with_imports_text) with
  | BOk (Done rest (preamble, rows)) =>
      parse_preamble_and_combinators
        (s "Intro" ++ [nl] ++ TABLE_HEADER_SEP ++ [nl] ++ row_with_imports_text) =
        BOk (Done rest (preamble, rows)) /\
      rows <> [] /\
      exists text le mid,
        preamble = text ++ TABLE_HEADER_SEP ++ le /\
        ~ is_infix TABLE_HEADER_SEP text /\ (le = [nl] \/ le = [cr; nl]) /\
        s "Intro" ++ [nl] ++ TABLE_HEADER_SEP ++ [nl] ++ row_with_imports_text =
          preamble ++ mid ++ rest
  | _ => False
  end.
Proof.
  destruct (parse_preamble_and_combinators
          (s "Intro" ++ [nl] ++ TABLE_HEADER_SEP ++ [nl] ++ row_with_imports_text))
    as [[rest [preamble rows]|i e]|err] eqn:E.
  - split; [reflexivity|]. exact (parse_preamble_and_combinators_spec _ _ _ _ E).
  - vm_compute in E. discriminate.
  - vm_compute in E. discriminate.
Defined.

(** [format_remainder] yields one line whose only spaces are the ones it
    puts after each comma: no line feed, no other space. *)
Theorem format_remainder_comma_spaced (remainder_debug : str) :
  comma_spaced (format_remainder remainder_debug).
Proof. apply format_remainder_spaced. Qed.

(** ** The [Ok] line of [format_iresult] *)

Lemma markdown_format_code_elem (t : str) (c : ascii) :
  c ∈ markdown_format_code t -> c = backtick \/ c = space \/ c ∈ t.
Proof.
  unfold markdown_format_code, repeat_char. rewrite !elem_of_app.
  intros [Hc|[Hc|[Hc|[Hc|Hc]]]];
    try (apply list_elem_of_In, repeat_spec in Hc; by left);
    try (by right; right);
    (destruct (_ || _); [apply list_elem_of_singleton in Hc; by right; left|
                         by apply elem_of_nil in Hc]).
Qed.

Lemma comma_spaced_no_nl (t : str) : comma_spaced t -> nl ∉ t.
Proof.
  induction 1 as [|t Ht IH|c t Hc Hsp Hnl Ht IH].
  - by intros ?%elem_of_nil.
  - rewrite !elem_of_cons. intros [H|[H|H]]; [discriminate|discriminate|by apply IH].
  - intros [H|H]%elem_of_cons; [by apply Hnl|by apply IH].
Qed.

(** For a successful parse whose value renders without a line feed,
    [format_iresult] never panics and yields one line: [Result: ], the
    value's code span (from which [parse_code_span] reads the value back)
    and the remainder part. *)
Theorem format_iresult_ok_line (k : InputKind) (input remainder : Slice)
    (remainder_debug value_debug : str) :
  value_debug <> [] -> nl ∉ value_debug ->
  exists out tail,
    format_iresult k input (IOk remainder remainder_debug value_debug) = Some out /\
    out = s "Result: " ++ markdown_format_code value_debug ++ tail /\
    parse_code_span (markdown_format_code value_debug ++ tail) = Done tail value_debug /\
    nl ∉ out.
Proof.
  intros Hne Hnl.
  assert (Hmd : nl ∉ markdown_format_code value_debug).
  { intros [H|[H|H]]%markdown_format_code_elem; [discriminate|discriminate|done]. }
  assert (Hparse : forall tail,
    parse_code_span (markdown_format_code value_debug ++ tail) = Done tail value_debug).
  { intros tail. destruct (markdown_format_code_shape value_debug Hne)
      as (n & mid & Heq & Hno & Hmne & Hst & Hen & Hstrip).
    rewrite Heq, <- !app_assoc, parse_code_span_framed by done. by rewrite Hstrip. }
  assert (Hlit : forall l : str, bool_decide (nl ∈ l) = false -> nl ∉ l).
  { intros l Hb. by apply bool_decide_eq_false in Hb. }
  unfold format_iresult. cbv zeta. destruct (len remainder =? 0)%Z.
  - exists (s "Result: " ++ markdown_format_code value_debug ++ br ++ s "No remainder"),
      (br ++ s "No remainder").
    split; [done|]. split; [done|]. split; [apply Hparse|].
    rewrite !elem_of_app. intros [H|[H|[H|H]]];
      first [exact (Hmd H) | revert H; apply Hlit; reflexivity].
  - exists (s "Result: " ++ markdown_format_code value_debug ++ br ++ s "Remainder: "
              ++ format_remainder remainder_debug),
      (br ++ s "Remainder: " ++ format_remainder remainder_debug).
    split; [done|]. split; [done|]. split; [apply Hparse|].
    pose proof (comma_spaced_no_nl _ (format_remainder_spaced remainder_debug)) as Hr.
    rewrite !elem_of_app. intros [H|[H|[H|[H|H]]]];
      first [exact (Hmd H) | exact (Hr H) | revert H; apply Hlit; reflexivity].
Qed.

Lemma format_iresult_ok_line_witness :
  (s "[1, 2]" <> []) /\ (nl ∉ s "[1, 2]") /\
  exists out tail,
    format_iresult BytesInput {| ptr := 4096; len := 4 |}
      (IOk {| ptr := 4098; len := 2 |} (s "[" ++ [nl] ++ s "    0x02," ++ [nl] ++ s "]")
           (s "[1, 2]")) = Some out /\
    out = s "Result: " ++ markdown_format_code (s "[1, 2]") ++ tail /\
    parse_code_span (markdown_format_code (s "[1, 2]") ++ tail) = Done tail (s "[1, 2]") /\
    nl ∉ out.
Proof.
  assert (Hne : s "[1, 2]" <> []) by discriminate.
  assert (Hnl : nl ∉ s "[1, 2]").
  { intros Hb. assert (Hd : bool_decide (nl ∈ s "[1, 2]") = true)
      by (by apply bool_decide_eq_true). vm_compute in Hd. discriminate. }
  split; [exact Hne|]. split; [exact Hnl|].
  exact (format_iresult_ok_line BytesInput {| ptr := 4096; len := 4 |}
           {| ptr := 4098; len := 2 |} _ _ Hne Hnl).
Defined.

(** ** Unclosed code blocks *)

Lemma parse_code_block_unclosed (u : str) :
  ~ is_infix fence (drop (length fence) u) ->
  exists i e, parse_code_block u = PError i e.
Proof.
  intros Hn. destruct (parse_code_block u) as [r c|i e] eqn:E; [|by eauto].
  exfalso. apply parse_code_block_spec in E as (l & le & code & _ & _ & ->).
  apply Hn. rewrite drop_app_length. exists (l ++ le ++ code), r.
  by rewrite <- !app_assoc.
Qed.

Lemma parse_outside_at_fence (u : str) :
  str_prefixb fence u = true -> parse_outside_code_blocks u = PError u Eof.
Proof.
  intros Hp. unfold parse_outside_code_blocks, alt, take_until.
  destruct u as [|a u]; [discriminate|]. cbn [find_substring]. rewrite Hp. reflexivity.
Qed.

(** A template whose first code fence is never closed again makes
    [do_code_blocks] panic: either [many1] fails ([unwrap]) or input is left
    over ([assert_eq!]). *)
Theorem do_code_blocks_unclosed_fence (t : str) (i : nat) :
  find_substring fence t = Some i ->
  ~ is_infix fence (drop (i + length fence) t) ->
  exists msg, do_code_blocks t = BErr (Panic msg).
Proof.
  intros Hf Hn. pose proof Hf as Hf'.
  apply find_substring_some in Hf as (Hle & Hpre & Hk).
  assert (Halt : exists i' e, alt parse_code_block parse_outside_code_blocks (drop i t) =
                              PError i' e).
  { unfold alt. destruct (parse_code_block_unclosed (drop i t)) as (i1 & e1 & ->).
    - by rewrite drop_drop.
    - rewrite parse_outside_at_fence by done. by eauto. }
  destruct Halt as (i' & e & Halt).
  unfold do_code_blocks, many1. destruct i as [|i].
  - rewrite drop_0 in Halt. rewrite Halt. by eexists.
  - assert (Hfirst : alt parse_code_block parse_outside_code_blocks t =
                     Done (drop (S i) t) (Text (take (S i) t))).
    { unfold alt, parse_code_block, tag.
      assert (H0 := Hk 0 ltac:(lia)). rewrite drop_0 in H0. rewrite H0. cbn [pbind].
      unfold parse_outside_code_blocks, alt, take_until. rewrite Hf'. cbn [pbind].
      destruct t as [|a t]; [simpl in Hle; lia|]. reflexivity. }
    rewrite Hfirst.
    assert (Hlen : length (drop (S i) t) <> length t).
    { apply str_prefixb_iff in Hpre as [q Hq].
      assert (length (drop (S i) t) = length (fence ++ q)) as Hl by (by rewrite Hq).
      rewrite length_drop in *. destruct t; simpl in *; lia. }
    replace (length (drop (S i) t) =? length t) with false
      by (symmetry; by apply Nat.eqb_neq).
    cbn [many_loop]. rewrite Halt.
    rewrite bool_decide_eq_false_2; [by eexists|].
    apply str_prefixb_iff in Hpre as [q ->]. discriminate.
Qed.

Lemma do_code_blocks_unclosed_fence_witness :
  find_substring fence (s "Intro" ++ [nl] ++ s "```rust" ++ [nl] ++ s "fn main() {}") = Some 6 /\
  ~ is_infix fence (drop (6 + length fence)
      (s "Intro" ++ [nl] ++ s "```rust" ++ [nl] ++ s "fn main() {}")) /\
  exists msg, do_code_blocks (s "Intro" ++ [nl] ++ s "```rust" ++ [nl] ++ s "fn main() {}") =
              BErr (Panic msg).
Proof.
  assert (Hf : find_substring fence (s "Intro" ++ [nl] ++ s "```rust" ++ [nl] ++ s "fn main() {}")
               = Some 6) by (vm_compute; reflexivity).
  assert (Hn : ~ is_infix fence (drop (6 + length fence)
      (s "Intro" ++ [nl] ++ s "```rust" ++ [nl] ++ s "fn main() {}"))).
  { apply find_substring_none. vm_compute. reflexivity. }
  split; [exact Hf|]. split; [exact Hn|].
  exact (do_code_blocks_unclosed_fence _ _ Hf Hn).
Defined.
